(** * Rain4Agri: the spatial imputation pipeline of
      [preprocess_and_impute_with_cache.py]

    A shallow embedding of the record flattener, the station catalog, the
    neighbour graph builder, the slice imputation worker, the parallel
    controller and the result assembler, and of the cleaner of
    [stationId_cleaner.py] that writes the list of valid stations, followed
    by the properties of the specification that were checked against them
    and by further properties of the code.

    Conventions of the embedding.
    - A Python float is an [option Q]: [Some q] is the number [q], [None] is
      NaN.  Arithmetic is exact; trigonometry and square roots (the haversine
      formula) are outside the embedding and enter as a section variable.
    - A Python exception is a constructor of [exn]; a function that can raise
      returns a [result].
    - A Python [dict] is an association list in insertion order.
    - A pandas frame is a list of rows in index order.

    The file has five parts: the embedding of the program, the definitions
    in which the properties are stated together with the example data, the
    lemmas, the properties of the specification, and further properties of
    the code. *)

From Stdlib Require Import QArith Qminmax Qabs Qround Lqa Lia.
From stdpp Require Import base list strings sorting gmap.

Local Open Scope string_scope.
Local Open Scope nat_scope.
Local Open Scope list_scope.

(** * Part I: the program *)

(** ** Python exceptions and the error monad *)

Inductive exn : Type :=
  | ValueError
  | TypeError
  | AttributeError
  | KeyError
  | JSONDecodeError.

Inductive result (A : Type) : Type :=
  | Ok (a : A)
  | Raise (e : exn).
Arguments Ok {A} a.
Arguments Raise {A} e.

#[global] Instance result_ret : MRet result := fun A a => Ok a.
#[global] Instance result_bind : MBind result := fun A B f m =>
  match m with
  | Ok a => f a
  | Raise e => Raise e
  end.
#[global] Instance result_fmap : FMap result := fun A B f m =>
  match m with
  | Ok a => Ok (f a)
  | Raise e => Raise e
  end.

Definition is_ok {A} (r : result A) : bool :=
  match r with Ok _ => true | Raise _ => false end.

(** [for x in xs: s = body(x, s)], stopping at the first exception. *)
Fixpoint for_each {A S : Type} (xs : list A) (body : A -> S -> result S) (s : S)
  : result S :=
  match xs with
  | [] => Ok s
  | x :: xs' => s' ← body x s; for_each xs' body s'
  end.

(** ** Floats *)

Abbreviation float := (option Q).

Definition isna (v : float) : bool :=
  match v with None => true | Some _ => false end.
Definition notna (v : float) : bool := negb (isna v).

(** [v * wi] for a float [v] and a weight [wi]. *)
Definition fmul (v : float) (w : Q) : float := (fun x => (x * w)%Q) <$> v.
Definition fadd (a b : float) : float :=
  match a, b with
  | Some x, Some y => Some (x + y)%Q
  | _, _ => None
  end.

(** Python's [sum]: a left fold that starts from [0]. *)
Definition py_sum (xs : list float) : float := foldl fadd (Some 0%Q) xs.
Definition Qsum (ws : list Q) : Q := foldl Qplus 0%Q ws.

(** [numpy.float64 / number].  [0.0 / 0] is NaN (with a warning, no exception).
    A non-zero numerator over [0] would be an infinity; [idw_numerator_zero]
    below shows that the worker never divides such a numerator by zero, so
    the infinities need no constructor. *)
Definition np_truediv (num : float) (den : Q) : float :=
  match num with
  | None => None
  | Some n => if Qeq_bool den 0 then None else Some (n / den)%Q
  end.

(** ** Dictionaries *)

Fixpoint dict_get {V : Type} (d : list (string * V)) (k : string) : option V :=
  match d with
  | [] => None
  | (k', v) :: d' => if decide (k' = k) then Some v else dict_get d' k
  end.

(** [d[k] = v]: an existing key keeps its position, a new key goes last. *)
Fixpoint dict_set {V : Type} (d : list (string * V)) (k : string) (v : V)
  : list (string * V) :=
  match d with
  | [] => [(k, v)]
  | (k', v') :: d' =>
      if decide (k' = k) then (k', v) :: d' else (k', v') :: dict_set d' k v
  end.

Definition dict_keys {V : Type} (d : list (string * V)) : list string := d.*1.

(** ** Stable sorting

    [list.sort(key=...)] and [sorted] are stable, and under a total preorder
    on the keys the stable sort of a list is unique; insertion from the right
    computes it. *)

Fixpoint insert_by {A K : Type} (leb : K -> K -> bool) (key : A -> K)
    (x : A) (l : list A) : list A :=
  match l with
  | [] => [x]
  | y :: l' =>
      if leb (key x) (key y) then x :: y :: l'
      else y :: insert_by leb key x l'
  end.

Definition sort_by {A K : Type} (leb : K -> K -> bool) (key : A -> K)
    (l : list A) : list A :=
  foldr (insert_by leb key) [] l.

(** ** Rounding

    [round(d, 4)]: to the nearest multiple of 1/10000, halves to the even
    neighbour. *)

Definition round_half_even (x : Q) : Z :=
  let f := Qfloor x in
  match (x - inject_Z f ?= 1 # 2)%Q with
  | Lt => f
  | Gt => (f + 1)%Z
  | Eq => if Z.even f then f else (f + 1)%Z
  end.

Definition py_round4 (d : Q) : Q :=
  (inject_Z (round_half_even (d * 10000)) / 10000)%Q.

(** ** Values returned by [json.load]

    [PNaN] is [np.nan], which the code uses as a default and as the
    replacement of a sentinel. *)

#[warnings="-register-all"]
Inductive pyval : Type :=
  | PNone
  | PBool (b : bool)
  | PNum (q : Q)
  | PNaN
  | PStr (s : string)
  | PList (l : list pyval)
  | PDict (kv : list (string * pyval)).

(** [d.get(k, dflt)]; only a dict has [get]. *)
Definition py_get (d : pyval) (k : string) (dflt : pyval) : result pyval :=
  match d with
  | PDict kv => Ok (default dflt (dict_get kv k))
  | _ => Raise AttributeError
  end.

(** Truth value, as [or] tests it. *)
Definition py_truthy (v : pyval) : bool :=
  match v with
  | PNone => false
  | PBool b => b
  | PNum q => negb (Qeq_bool q 0)
  | PNaN => true
  | PStr s => negb (bool_decide (s = EmptyString))
  | PList l => negb (bool_decide (l = []))
  | PDict kv => negb (bool_decide (kv = []))
  end.

Definition py_or (a b : pyval) : pyval := if py_truthy a then a else b.

Fixpoint chars (s : string) : list pyval :=
  match s with
  | EmptyString => []
  | String c s' => PStr (String c EmptyString) :: chars s'
  end.

(** [for x in v]: a list yields its elements, a dict its keys, a string its
    characters; nothing else is iterable. *)
Definition py_iter (v : pyval) : result (list pyval) :=
  match v with
  | PList l => Ok l
  | PDict kv => Ok (PStr <$> kv.*1)
  | PStr s => Ok (chars s)
  | _ => Raise TypeError
  end.

(** ** The record flattener: [flatten_and_clean]

    The directory tree under [HIS_ROOT] is a dict from a station id to the
    listing of its directory; a file is its name and the value [json.load]
    returns for it, or [None] when [json.load] raises.  Numbers are compared
    by their decimal value.  The result is the list [records]; the CSV
    snapshot of line 96 is a copy of it. *)

Definition fields : list (string * list string) :=
  [("StationPressure", ["Instantaneous"]);
   ("SeaLevelPressure", ["Instantaneous"]);
   ("AirTemperature", ["Instantaneous"; "Maximum"; "Minimum"]);
   ("DewPointTemperature", ["Instantaneous"]);
   ("RelativeHumidity", ["Instantaneous"]);
   ("WindSpeed", ["TenMinutelyMaximum"; "Mean"]);
   ("WindDirection", ["TenMinutelyMaximum"; "Mean"]);
   ("PeakGust", ["Direction"; "Maximum"]);
   ("Precipitation", ["Accumulation"]);
   ("PrecipitationDuration", ["Total"]);
   ("SunshineDuration", ["Total"]);
   ("GlobalSolarRadiation", ["Accumulation"]);
   ("Visibility", ["Instantaneous"]);
   ("UVIndex", ["Accumulation"]);
   ("TotalCloudAmount", ["Instantaneous"]);
   ("SoilTemperatureAt0cm", ["Instantaneous"]);
   ("SoilTemperatureAt5cm", ["Instantaneous"]);
   ("SoilTemperatureAt10cm", ["Instantaneous"]);
   ("SoilTemperatureAt20cm", ["Instantaneous"]);
   ("SoilTemperatureAt30cm", ["Instantaneous"]);
   ("SoilTemperatureAt50cm", ["Instantaneous"]);
   ("SoilTemperatureAt100cm", ["Instantaneous"])].

(** The placeholder codes of lines 88-89. *)
Definition sentinels : list Q :=
  [-(95 # 10); -(995 # 10); -(999 # 10); -(9995 # 100); -(9995 # 10);
   -(99995 # 10); -(995 # 100); -(9995 # 1); -(98 # 10); -(9995 # 1);
   -(95 # 10); -(997 # 10); -(999 # 10)]%Q.

(** Lines 87-91.  A bool is an [int], but equals no placeholder code. *)
Definition normalize (val : pyval) : pyval :=
  match val with
  | PNum q => if existsb (Qeq_bool q) sentinels then PNaN else val
  | _ => val
  end.

Record FlatRecord : Type := mkRecord {
  rec_StationID : string;
  rec_DataTime : pyval;
  rec_values : list (string * pyval)
}.

Definition flatten_group (entry : pyval) (grp_subs : string * list string)
  : result (list (string * pyval)) :=
  g ← py_get entry grp_subs.1 (PDict []);
  let grp_data := py_or g (PDict []) in
  mapM (fun sub => val ← py_get grp_data sub PNone;
                   Ok (grp_subs.1 +:+ "_" +:+ sub, normalize val))
       grp_subs.2.

Definition flatten_entry (sid : string) (entry : pyval) : result FlatRecord :=
  dt ← py_get entry "DataTime" PNone;
  vals ← mapM (flatten_group entry) fields;
  Ok (mkRecord sid dt (concat vals)).

Definition flatten_item (sid : string) (item : pyval) : result (list FlatRecord) :=
  d ← py_get item "dts" PNone;
  dts ← (if py_truthy d then Ok d else py_get item "data" (PList []));
  entries ← py_iter dts;
  mapM (flatten_entry sid) entries.

Definition has_key (kv : list (string * pyval)) (k : string) : bool :=
  bool_decide (k ∈ kv.*1).

(** The three shapes of lines 72-77, in the order in which they are tested. *)
Definition recognized_shape (data : pyval) : bool :=
  match data with
  | PDict kv => has_key kv "data" || (has_key kv "StationID" && has_key kv "dts")
  | PList _ => true
  | _ => false
  end.

Definition select_items (data : pyval) : pyval :=
  match data with
  | PDict kv =>
      if has_key kv "data" then default PNone (dict_get kv "data")
      else if has_key kv "StationID" && has_key kv "dts" then PList [data]
      else PList []
  | PList _ => data
  | _ => PList []
  end.

Definition flatten_file (sid : string) (content : option pyval)
  : result (list FlatRecord) :=
  match content with
  | None => Raise JSONDecodeError
  | Some data =>
      items ← py_iter (select_items data);
      rows ← mapM (flatten_item sid) items;
      Ok (concat rows)
  end.

Definition endswith (s suffix : string) : bool :=
  let n := String.length s in
  let m := String.length suffix in
  bool_decide (m ≤ n) && bool_decide (String.substring (n - m) m s = suffix).

(** The files that the two outer loops open, in the order in which they open
    them. *)
Definition json_files (valid : gset string)
    (his_root : list (string * list (string * option pyval)))
  : list (string * string * option pyval) :=
  sid ← sort_by String.leb id (elements valid);
  match dict_get his_root sid with
  | None => []
  | Some dir =>
      (fun f => (sid, f.1, f.2))
        <$> filter (fun f => endswith f.1 ".json" = true) (sort_by String.leb fst dir)
  end.

Definition flatten_step (job : string * string * option pyval)
    (records : list FlatRecord) : result (list FlatRecord) :=
  rows ← flatten_file job.1.1 job.2;
  Ok (records ++ rows).

Definition flatten_and_clean (valid : gset string)
    (his_root : list (string * list (string * option pyval)))
  : result (list FlatRecord) :=
  for_each (json_files valid his_root) flatten_step [].

(** ** The station catalog: [load_station_info] *)

Record StationInfo : Type := mkInfo {
  lon : pyval;
  lat : pyval;
  alt : pyval
}.

Record MetaRow : Type := mkMeta {
  meta_StationID : string;
  Longitude : pyval;
  Latitude : pyval;
  Altitude : pyval
}.

(** [sid in valid_stations]: the set holds strings; a list or a dict is
    unhashable. *)
Definition in_valid (valid : gset string) (sid : pyval) : result (option string) :=
  match sid with
  | PStr s => Ok (if decide (s ∈ valid) then Some s else None)
  | PList _ | PDict _ => Raise TypeError
  | _ => Ok None
  end.

Definition load_item (valid : gset string) (item : pyval)
    (st : list (string * StationInfo) * list MetaRow)
  : result (list (string * StationInfo) * list MetaRow) :=
  sid ← py_get item "stationID" PNone;
  hit ← in_valid valid sid;
  match hit with
  | Some s =>
      lon ← py_get item "longitude" PNaN;
      lat ← py_get item "latitude" PNaN;
      alt ← py_get item "altitude" PNaN;
      Ok (dict_set st.1 s (mkInfo lon lat alt), st.2 ++ [mkMeta s lon lat alt])
  | None => Ok st
  end.

Definition load_group (valid : gset string) (grp : pyval)
    (st : list (string * StationInfo) * list MetaRow)
  : result (list (string * StationInfo) * list MetaRow) :=
  items ← py_get grp "item" (PList []) ≫= py_iter;
  for_each items (load_item valid) st.

(** Returns [(station_info, station_meta)]; [station_meta] is the list of
    records behind [station_meta_df]. *)
Definition load_station_info (valid : gset string) (meta : pyval)
  : result (list (string * StationInfo) * list MetaRow) :=
  grps ← py_get meta "data" (PList []) ≫= py_iter;
  for_each grps (load_group valid) ([], []).

(** ** The neighbour graph builder: [compute_and_cache_neighbors]

    Lines 119-122 (haversine on the coordinates, the altitude difference, the
    square root of the sum of squares) are the variable [metric]: a number
    for every pair of catalog entries. *)

(** An entry of a neighbour list: [{'station': o, 'distance_km': d}]. *)
Record Neighbor : Type := mkNeighbor {
  station : string;
  distance_km : Q
}.

Section Builder.
Variable metric : StationInfo -> StationInfo -> Q.

Definition distance_3d (station_info : list (string * StationInfo))
    (a b : string) : Q :=
  match dict_get station_info a, dict_get station_info b with
  | Some i1, Some i2 => metric i1 i2
  | _, _ => 0%Q (* KeyError; [a] and [b] are always keys of [station_info] *)
  end.

(** [dists] of line 125, sorted by line 126. *)
Definition sorted_dists (station_info : list (string * StationInfo))
    (sid : string) : list (string * Q) :=
  sort_by Qle_bool snd
    ((fun o => (o, distance_3d station_info sid o))
       <$> filter (fun o => o ≠ sid) (dict_keys station_info)).

Definition neighbor_list (station_info : list (string * StationInfo))
    (sid : string) : list Neighbor :=
  (fun od => mkNeighbor od.1 (py_round4 od.2)) <$> sorted_dists station_info sid.

(** The returned dict, which is also the content of the cache file. *)
Definition compute_and_cache_neighbors (station_info : list (string * StationInfo))
  : list (string * list Neighbor) :=
  foldl (fun neighbors sid => dict_set neighbors sid (neighbor_list station_info sid))
        [] (dict_keys station_info).

(** Lines 162-166 of [main]: from the valid stations and the catalog to the
    neighbour map. *)
Definition build_neighbors (valid : gset string) (meta : pyval)
  : result (list (string * list Neighbor)) :=
  info ← load_station_info valid meta;
  Ok (compute_and_cache_neighbors info.1).
End Builder.

(** ** Frames

    A time slice is [g.set_index('StationID')[feature_cols]]: one row per
    station label, one float per feature column.  Columns are named by their
    position in [feature_cols]. *)

Record DataFrame : Type := mkFrame {
  ncols : nat;
  rows : list (string * list float)
}.

Definition index (grp : DataFrame) : list string := (rows grp).*1.

(** [grp.at[s, col]] used as a scalar.  With a repeated label pandas returns a
    Series, and the [if pd.isna(...)] / [if pd.notna(...)] around every read
    raises ValueError on it. *)
Definition df_at (grp : DataFrame) (s : string) (col : nat) : result float :=
  match filter (fun r => r.1 = s) (rows grp) with
  | [] => Raise KeyError
  | [r] => match r.2 !! col with
           | Some v => Ok v
           | None => Raise KeyError
           end
  | _ :: _ :: _ => Raise ValueError
  end.

(** [grp.at[s, col] = v] on a frame whose label [s] is unique. *)
Definition df_set (grp : DataFrame) (s : string) (col : nat) (v : float)
  : DataFrame :=
  mkFrame (ncols grp)
    ((fun r => if decide (r.1 = s) then (r.1, <[col := v]> (r.2)) else r)
       <$> rows grp).

(** ** The slice imputation worker: [impute_slice] *)

Definition MIN_NEIGHBORS : nat := 3.
Definition IDW_POWER : nat := 2.

Record LogEntry : Type := mkLog {
  log_time : string;
  log_proc : string;
  log_station : string;
  log_col : nat
}.

#[global] Instance LogEntry_eq_dec : EqDecision LogEntry.
Proof. solve_decision. Defined.

(** The neighbour scan of lines 141-149, with [avail] threaded through. *)
Fixpoint scan (grp : DataFrame) (col : nat) (ns : list Neighbor)
    (avail : list (string * Q)) : result (list (string * Q)) :=
  match ns with
  | [] => Ok avail
  | n :: ns' =>
      let s2 := station n in
      let dist := distance_km n in
      if bool_decide (s2 ∈ index grp) then
        val ← df_at grp s2 col;
        let avail' := if notna val then avail ++ [(s2, dist)] else avail in
        if bool_decide (MIN_NEIGHBORS ≤ length avail') then Ok avail'
        else scan grp col ns' avail'
      else scan grp col ns' avail
  end.

(** [1/(d**IDW_POWER) if d>0 else 0] *)
Definition idw_weight (d : Q) : Q :=
  if Qlt_le_dec 0 d then (1 / d ^ Z.of_nat IDW_POWER)%Q else 0%Q.

(** [sum(v*wi for v,wi in zip(vals, w)) / sum(w)] *)
Definition idw_estimate (vals : list float) (dists : list Q) : float :=
  let w := idw_weight <$> dists in
  np_truediv (py_sum (zip_with fmul vals w)) (Qsum w).

(** The body of the two loops: one cell [(station, col)]. *)
Definition impute_cell (t proc : string) (neighbors : list (string * list Neighbor))
    (cell : string * nat) (st : DataFrame * list LogEntry)
  : result (DataFrame * list LogEntry) :=
  let '(station, col) := cell in
  let '(grp, log) := st in
  v ← df_at grp station col;
  if isna v then
    avail ← scan grp col (default [] (dict_get neighbors station)) [];
    if bool_decide (length avail < MIN_NEIGHBORS) then
      Ok (grp, log ++ [mkLog t proc station col])
    else
      vals ← mapM (fun a => df_at grp a.1 col) avail;
      Ok (df_set grp station col (idw_estimate vals (avail.*2)), log)
  else Ok (grp, log).

(** The cells in the order of [for station in grp.index: for col in grp.columns]. *)
Definition cells (grp : DataFrame) : list (string * nat) :=
  station ← index grp; col ← seq 0 (ncols grp); [(station, col)].

(** [impute_slice((t, grp, neighbors))]: the imputed copy of the slice and the
    lines this call appends to the log. *)
Definition impute_slice (proc : string)
    (args : string * DataFrame * list (string * list Neighbor))
  : result (DataFrame * list LogEntry) :=
  let '(t, grp, neighbors) := args in
  for_each (cells grp) (impute_cell t proc neighbors) (grp, []).

(** ** Partitioning, parallel execution and assembly: lines 168-182 of [main]

    [df0] is the flattened table with its feature columns as floats.  The
    name of the process that handles a slice is chosen by the pool; it only
    appears in log lines and is the variable [proc_of]. *)

Record FlatRow : Type := mkRow {
  StationID : string;
  DataTime : option string;
  features : list float
}.

Record OutRow : Type := mkOut {
  out_StationID : string;
  out_DataTime : string;
  out_features : list float;
  out_meta : option MetaRow
}.

(** The keys of [df0.groupby('DataTime')]: the distinct timestamps in
    ascending order; a row without a timestamp belongs to no group. *)
Definition group_keys (df0 : list FlatRow) : list string :=
  sort_by String.leb id (remove_dups (omap DataTime df0)).

(** [g.set_index('StationID')[feature_cols]] for the group of timestamp [t]. *)
Definition slice_of (nfeat : nat) (df0 : list FlatRow) (t : string) : DataFrame :=
  mkFrame nfeat
    ((fun r => (StationID r, features r))
       <$> filter (fun r => DataTime r = Some t) df0).

(** [df0.groupby('DataTime')] needs the column, which a table made from no
    record does not have. *)
Definition make_groups (nfeat : nat) (df0 : list FlatRow)
    (neighbors : list (string * list Neighbor))
  : result (list (string * DataFrame * list (string * list Neighbor))) :=
  match df0 with
  | [] => Raise KeyError
  | _ :: _ => Ok ((fun t => (t, slice_of nfeat df0 t, neighbors)) <$> group_keys df0)
  end.

(** [g.assign(DataTime=t)] on the frame returned by a worker. *)
Definition assign_time (t : string) (g : DataFrame)
  : list (string * string * list float) :=
  (fun r => (r.1, t, r.2)) <$> rows g.

(** [imputed.merge(station_meta_df, on='StationID', how='left')]: one output
    row per matching metadata record, one row without metadata when there is
    none.  A frame made from no record has no [StationID] column to join on. *)
Definition merge_left (imputed : list (string * string * list float))
    (station_meta : list MetaRow) : result (list OutRow) :=
  match station_meta with
  | [] => Raise KeyError
  | _ :: _ =>
      Ok (r ← imputed;
          match filter (fun m => meta_StationID m = r.1.1) station_meta with
          | [] => [mkOut r.1.1 r.1.2 r.2 None]
          | ms => (fun m => mkOut r.1.1 r.1.2 r.2 (Some m)) <$> ms
          end)
  end.

Section Controller.
Variable proc_of : string -> string.

Definition worker (args : string * DataFrame * list (string * list Neighbor))
  : result (DataFrame * list LogEntry) :=
  impute_slice (proc_of args.1.1) args.

(** [list(exe.map(impute_slice, groups))]: the results in the order of
    [groups]; the exception of a worker is raised again when its result is
    fetched, and nothing is returned. *)
Definition exe_map (groups : list (string * DataFrame * list (string * list Neighbor)))
  : result (list (DataFrame * list LogEntry)) :=
  mapM worker groups.

(** [pd.concat] of the frames of line 179; it refuses an empty list. *)
Definition pd_concat (frames : list (list (string * string * list float)))
  : result (list (string * string * list float)) :=
  match frames with
  | [] => Raise ValueError
  | _ :: _ => Ok (concat frames)
  end.

(** [main] from line 168 on, once [df0], [station_meta_df] and [neighbors]
    are there: the table written to [IMPUTED_CSV]. *)
Definition run_from_table (nfeat : nat) (df0 : list FlatRow)
    (station_meta : list MetaRow) (neighbors : list (string * list Neighbor))
  : result (list OutRow) :=
  groups ← make_groups nfeat df0 neighbors;
  results ← exe_map groups;
  imputed ← pd_concat (zip_with (fun grp res => assign_time grp.1.1 res.1)
                                groups results);
  merge_left imputed station_meta.
End Controller.

(** ** The station list cleaner: [extract_valid_station_ids] of
       [stationId_cleaner.py]

    The script that writes the list of valid stations which [main] reads.
    [data] is the value of [json.load] on the catalog; the result is the list
    of the lines written to the output file, each without its newline.  An id
    that is not a string raises TypeError on every path: in [set] when it is
    unhashable, in [sorted] when it meets a string, in [sid + "\n"]
    otherwise. *)

(** Lines 21-24: the body of the inner loop. *)
Definition extract_item (st : pyval) (valid_ids : list pyval) : result (list pyval) :=
  e ← py_get st "stationEndDate" PNone;
  if py_truthy e then Ok valid_ids
  else
    sid ← py_get st "stationID" PNone;
    Ok (if py_truthy sid then valid_ids ++ [sid] else valid_ids).

Definition extract_group (group : pyval) (valid_ids : list pyval)
  : result (list pyval) :=
  items ← py_get group "item" (PList []) ≫= py_iter;
  for_each items extract_item valid_ids.

Definition str_of (v : pyval) : result string :=
  match v with
  | PStr s => Ok s
  | _ => Raise TypeError
  end.

Definition extract_valid_station_ids (data : pyval) : result (list string) :=
  groups ← py_get data "data" (PList []) ≫= py_iter;
  valid_ids ← for_each groups extract_group [];
  ids ← mapM str_of valid_ids;
  Ok (sort_by String.leb id (remove_dups ids)).

(** * Part II: the vocabulary of the properties *)

(** ** Reading a frame without exceptions

    [frame_get] is the cell under a label that occurs once; [wf_frame] holds
    of a frame whose index has no repeated label and whose rows have one
    float per column. *)

Definition frame_get (grp : DataFrame) (s : string) (col : nat) : option float :=
  r ← dict_get (rows grp) s; r !! col.

Definition wf_frame (grp : DataFrame) : Prop :=
  NoDup (index grp) ∧ Forall (fun r => length r.2 = ncols grp) (rows grp).

#[global] Instance wf_frame_dec grp : Decision (wf_frame grp).
Proof. unfold wf_frame. apply _. Defined.

(** A frame whose rows have one float per column, and the number of rows
    that carry a label. *)
Definition rectangular (grp : DataFrame) : Prop :=
  Forall (fun r => length r.2 = ncols grp) (rows grp).

Definition occurrences (s : string) (grp : DataFrame) : nat :=
  length (filter (fun k => k = s) (index grp)).

(** ** Candidates and quorum

    The candidates of a cell are the neighbours, in list order, that have a
    row in the slice and a number in the column. *)

Definition is_candidate (grp : DataFrame) (col : nat) (n : Neighbor) : bool :=
  match frame_get grp (station n) col with
  | Some (Some _) => true
  | _ => false
  end.

Definition candidates (grp : DataFrame) (col : nat) (ns : list Neighbor)
  : list (string * Q) :=
  (fun n => (station n, distance_km n)) <$> filter (fun n => is_candidate grp col n) ns.

Definition quorum_found (grp : DataFrame) (col : nat) (ns : list Neighbor) : Prop :=
  MIN_NEIGHBORS ≤ length (candidates grp col ns).

#[global] Instance quorum_found_dec grp col ns : Decision (quorum_found grp col ns).
Proof. unfold quorum_found. apply _. Defined.

(** The number read back at line 154 for a neighbour that passed the scan. *)
Definition value_of (grp : DataFrame) (col : nat) (a : string * Q) : Q :=
  match frame_get grp a.1 col with
  | Some (Some q) => q
  | _ => 0%Q
  end.

(** ** Smallest and largest candidate value *)

Definition Qlist_min (l : list Q) : Q :=
  match l with
  | [] => 0%Q
  | x :: l' => foldl Qmin x l'
  end.

Definition Qlist_max (l : list Q) : Q :=
  match l with
  | [] => 0%Q
  | x :: l' => foldl Qmax x l'
  end.

(** ** The worker without exceptions

    On a frame that satisfies [wf_frame] no read raises, and the body of the
    two loops is the function [cell_step]. *)

Section WorkerSteps.
Variables (t proc : string) (neighbors : list (string * list Neighbor)).

Definition neighbors_of (s : string) : list Neighbor :=
  default [] (dict_get neighbors s).

(** The candidates that the scan hands to the weighted average. *)
Definition cell_avail (grp : DataFrame) (s : string) (col : nat)
  : list (string * Q) :=
  take MIN_NEIGHBORS (candidates grp col (neighbors_of s)).

Definition cell_estimate (grp : DataFrame) (s : string) (col : nat) : float :=
  idw_estimate ((fun a => Some (value_of grp col a)) <$> cell_avail grp s col)
               ((cell_avail grp s col).*2).

Definition cell_step (cell : string * nat) (st : DataFrame * list LogEntry)
  : DataFrame * list LogEntry :=
  match frame_get st.1 cell.1 cell.2 with
  | Some None =>
      if decide (quorum_found st.1 cell.2 (neighbors_of cell.1))
      then (df_set st.1 cell.1 cell.2 (cell_estimate st.1 cell.1 cell.2), st.2)
      else (st.1, st.2 ++ [mkLog t proc cell.1 cell.2])
  | _ => st
  end.

(** The log lines of a cell. *)
Definition entries_for (s : string) (col : nat) (log : list LogEntry) : nat :=
  length (filter (fun e => log_time e = t ∧ log_station e = s ∧ log_col e = col) log).

Definition run_cells (cs : list (string * nat)) (st : DataFrame * list LogEntry)
  : DataFrame * list LogEntry :=
  foldl (fun st c => cell_step c st) st cs.

End WorkerSteps.

(** ** Order on keys *)

Definition key_le {A K : Type} (leb : K -> K -> bool) (key : A -> K)
    (x y : A) : Prop :=
  leb (key x) (key y) = true.

(** ** Catalogs of the documented shape *)

(** A catalog document of the documented shape: groups of station entries. *)
Record CatalogItem : Type := mkItem {
  item_id : string;
  item_lon : pyval;
  item_lat : pyval;
  item_alt : pyval
}.

Definition encode_item (it : CatalogItem) : pyval :=
  PDict [("stationID", PStr (item_id it)); ("longitude", item_lon it);
         ("latitude", item_lat it); ("altitude", item_alt it)].

Definition encode_catalog (groups : list (list CatalogItem)) : pyval :=
  PDict [("data", PList ((fun g => PDict [("item", PList (encode_item <$> g))])
                          <$> groups))].





Definition info_ok (valid : gset string)
    (st : list (string * StationInfo) * list MetaRow) : Prop :=
  NoDup (dict_keys st.1) ∧ ∀ s, s ∈ dict_keys st.1 → s ∈ valid.

(** ** Pairs of station and timestamp *)

Definition out_pairs (out : list OutRow) : list (string * option string) :=
  (fun r => (out_StationID r, Some (out_DataTime r))) <$> out.
Definition flat_pairs (df0 : list FlatRow) : list (string * option string) :=
  (fun r => (StationID r, DataTime r)) <$> df0.

Definition key_in (ks : list string) (o : option string) : Prop :=
  match o with
  | Some k => k ∈ ks
  | None => False
  end.

#[global] Instance key_in_dec ks o : Decision (key_in ks o).
Proof. destruct o; simpl; apply _. Defined.

(** ** Example data

    Stations on one parallel, with [line_metric] giving 100 km per degree of
    longitude between two catalog entries. *)

Definition line_metric (i1 i2 : StationInfo) : Q :=
  match lon i1, lon i2 with
  | PNum a, PNum b => (100 * Qabs (a - b))%Q
  | _, _ => 0%Q
  end.

Definition station_at (sid : string) (lon : Q) : CatalogItem :=
  mkItem sid (PNum lon) (PNum 24) (PNum 10).

(** Four instruments at one site and a fifth station one degree away. *)
Definition site_valid : gset string := {[ "A"; "B"; "P"; "R"; "Z" ]}.
Definition site_catalog : pyval :=
  encode_catalog [[station_at "A" 121; station_at "B" 121; station_at "P" 121;
                   station_at "R" 121; station_at "Z" 122]].
Definition site_info : list (string * StationInfo) :=
  [("A", mkInfo (PNum 121) (PNum 24) (PNum 10));
   ("B", mkInfo (PNum 121) (PNum 24) (PNum 10));
   ("P", mkInfo (PNum 121) (PNum 24) (PNum 10));
   ("R", mkInfo (PNum 121) (PNum 24) (PNum 10));
   ("Z", mkInfo (PNum 122) (PNum 24) (PNum 10))].
Definition site_neighbors : list (string * list Neighbor) :=
  compute_and_cache_neighbors line_metric site_info.

(** One feature; [B] has no reading, the three instruments next to it do. *)
Definition site_slice : DataFrame :=
  mkFrame 1 [("B", [None]); ("A", [Some 1%Q]); ("P", [Some 2%Q]); ("R", [Some 3%Q])].


(** Five stations one degree apart. *)
Definition line_info : list (string * StationInfo) :=
  [("A", mkInfo (PNum 120) (PNum 24) (PNum 10));
   ("B", mkInfo (PNum 121) (PNum 24) (PNum 10));
   ("C", mkInfo (PNum 122) (PNum 24) (PNum 10));
   ("D", mkInfo (PNum 123) (PNum 24) (PNum 10));
   ("E", mkInfo (PNum 124) (PNum 24) (PNum 10))].
Definition line_valid : gset string := {[ "A"; "B"; "C"; "D"; "E" ]}.
Definition line_catalog : pyval :=
  encode_catalog [[station_at "A" 120; station_at "B" 121; station_at "C" 122;
                   station_at "D" 123; station_at "E" 124]].
Definition line_neighbors : list (string * list Neighbor) :=
  compute_and_cache_neighbors line_metric line_info.
Definition line_slice_AB : DataFrame :=
  mkFrame 1 [("A", [None]); ("B", [None]); ("C", [Some 10%Q]); ("D", [Some 20%Q]);
             ("E", [Some 30%Q])].

(** The working copy of [line_slice_AB] when the loops reach the cell of [B]. *)
Definition line_before_B : DataFrame :=
  (run_cells "t" "w" line_neighbors [("A", 0)] (line_slice_AB, [])).1.


(** [B] and [C] have the same coordinates, one degree east of [A], so that
    they are at the same distance from [A] under any metric; the catalog
    lists [C] first. *)
Definition tie_valid : gset string := {[ "A"; "B"; "C" ]}.
Definition tie_catalog : pyval :=
  encode_catalog [[station_at "A" 121; station_at "C" 122; station_at "B" 122]].
Definition tie_info : list (string * StationInfo) :=
  [("A", mkInfo (PNum 121) (PNum 24) (PNum 10));
   ("C", mkInfo (PNum 122) (PNum 24) (PNum 10));
   ("B", mkInfo (PNum 122) (PNum 24) (PNum 10))].

(** A file of the wrapper shape with one hourly entry. *)
Definition good_file : pyval :=
  PDict [("data",
          PList [PDict [("StationID", PStr "A");
                        ("dts",
                         PList [PDict [("DataTime", PStr "2024-01-01T01:00:00");
                                       ("AirTemperature",
                                        PDict [("Instantaneous", PNum (-(995 # 10)))]);
                                       ("Precipitation",
                                        PDict [("Accumulation", PNum (5 # 10))])]])]])].

(** ** The columns and the values of a flattened record *)

(** The value columns of a record, in the order of the two loops of lines
    82-85; they are the [feature_cols] of line 168. *)
Definition feature_cols : list string :=
  gs ← fields; (fun sub => gs.1 +:+ "_" +:+ sub) <$> gs.2.

(** A number that equals one of the placeholder codes. *)
Definition is_sentinel (v : pyval) : Prop :=
  match v with
  | PNum q => Exists (fun s => (q == s)%Q) sentinels
  | _ => False
  end.

Definition record_clean (r : FlatRecord) : Prop :=
  dict_keys (rec_values r) = feature_cols
  ∧ Forall (fun kv => ¬ is_sentinel kv.2) (rec_values r).

Definition is_dict (v : pyval) : bool :=
  match v with
  | PDict _ => true
  | _ => false
  end.

(** ** The entries of a catalog document *)

(** The entries that the two loops over a catalog document visit, in the
    order of the visit. *)
Definition group_items (grp : pyval) : result (list pyval) :=
  py_get grp "item" (PList []) ≫= py_iter.

Definition catalog_items (meta : pyval) : result (list pyval) :=
  grps ← py_get meta "data" (PList []) ≫= py_iter;
  itemss ← mapM group_items grps;
  Ok (concat itemss).

(** [item.get(k, np.nan)] on an entry that is a dict. *)
Definition field_of (item : pyval) (k : string) : pyval :=
  match item with
  | PDict kv => default PNaN (dict_get kv k)
  | _ => PNaN
  end.

(** The station and the coordinates that an entry contributes to the station
    map, if its id is a valid station. *)
Definition item_entry (valid : gset string) (item : pyval)
  : option (string * StationInfo) :=
  match item with
  | PDict kv =>
      match dict_get kv "stationID" with
      | Some (PStr s) =>
          if decide (s ∈ valid)
          then Some (s, mkInfo (field_of item "longitude") (field_of item "latitude")
                               (field_of item "altitude"))
          else None
      | _ => None
      end
  | _ => None
  end.

Definition meta_row (e : string * StationInfo) : MetaRow :=
  mkMeta e.1 (lon e.2) (lat e.2) (alt e.2).

(** The id that the cleaner collects from an entry: the entry has no end
    date and its id is truthy. *)
Definition active_id (item : pyval) : option pyval :=
  match item with
  | PDict kv =>
      if py_truthy (default PNone (dict_get kv "stationEndDate")) then None
      else
        let sid := default PNone (dict_get kv "stationID") in
        if py_truthy sid then Some sid else None
  | _ => None
  end.

(** ** Observed cells *)

Definition has_value (r : list float) (col : nat) : bool :=
  match r !! col with
  | Some (Some _) => true
  | _ => false
  end.

(** The stations that have a number in a column. *)
Definition observed (grp : DataFrame) (col : nat) : list string :=
  (filter (fun r => has_value r.2 col = true) (rows grp)).*1.

(** Every cell of the frame holds a number. *)
Definition complete (grp : DataFrame) : Prop :=
  Forall (fun r => Forall (fun v => is_Some v) r.2) (rows grp).

(** The candidates, as pairs of value and distance, whose distance is
    positive. *)
Definition weighted (vds : list (Q * Q)) : list (Q * Q) :=
  filter (fun vd => Qle_bool vd.2 0 = false) vds.

(** ** More example data *)

(** A catalog entry with an end date; the empty end date marks a station in
    service. *)
Definition station_entry (sid : string) (ended : string) (lon : Q) : pyval :=
  PDict [("stationID", PStr sid); ("stationEndDate", PStr ended);
         ("longitude", PNum lon); ("latitude", PNum 24); ("altitude", PNum 10)].

(** [A] is listed twice, the second time at another place; [C] is retired. *)
Definition moved_catalog : pyval :=
  PDict [("data",
          PList [PDict [("item",
                         PList [station_entry "B" EmptyString 121;
                                station_entry "A" EmptyString 120;
                                station_entry "C" "2020-01-01" 122;
                                station_entry "A" EmptyString 123])]])].

(** A slice in which every station has a reading. *)
Definition full_slice : DataFrame :=
  mkFrame 1 [("A", [Some 1%Q]); ("B", [Some 2%Q]); ("C", [Some 3%Q])].

(** A slice with two stations and one reading. *)
Definition sparse_slice : DataFrame :=
  mkFrame 1 [("A", [None]); ("B", [Some 2%Q])].

(** A slice in which the label [A] occurs twice. *)
Definition repeated_slice : DataFrame :=
  mkFrame 1 [("A", [None]); ("A", [Some 1%Q])].

(** Under [line_metric], [B] is one metre and [C] one centimetre from [A]. *)
Definition close_info : list (string * StationInfo) :=
  [("A", mkInfo (PNum 121) (PNum 24) (PNum 10));
   ("B", mkInfo (PNum (12100001 # 100000)) (PNum 24) (PNum 10));
   ("C", mkInfo (PNum (1210000001 # 10000000)) (PNum 24) (PNum 10))].

(** * Part III: lemmas *)

(** Goals that are propositional up to equalities between constructors. *)
Ltac propositional := intuition (simplify_eq; eauto; try congruence).

(** ** Dictionaries and frames *)

Lemma dict_get_None {V} (d : list (string * V)) k :
  dict_get d k = None ↔ k ∉ d.*1.
Proof.
  induction d as [|[k' v] d IH]; simpl.
  - split; [intros _; apply not_elem_of_nil | done].
  - rewrite not_elem_of_cons. destruct (decide (k' = k)) as [->|Hne].
    + split; [done | by intros [H _]].
    + rewrite IH. split; [by intros H; split | by intros [_ H]].
Qed.

Lemma dict_get_Some_elem {V} (d : list (string * V)) k v :
  dict_get d k = Some v → (k, v) ∈ d.
Proof.
  induction d as [|[k' v'] d IH]; simpl; [done|].
  destruct (decide (k' = k)) as [->|]; intros H.
  - injection H as ->. left.
  - right. auto.
Qed.

Lemma dict_get_is_Some {V} (d : list (string * V)) k :
  is_Some (dict_get d k) ↔ k ∈ d.*1.
Proof.
  rewrite <- not_eq_None_Some, dict_get_None.
  destruct (decide (k ∈ d.*1)); propositional.
Qed.

Lemma filter_label_NoDup {V} (d : list (string * V)) s :
  NoDup d.*1 →
  filter (fun r => r.1 = s) d
  = match dict_get d s with Some v => [(s, v)] | None => [] end.
Proof.
  induction d as [|[k v] d IH]; simpl; [done|].
  rewrite NoDup_cons. intros [Hk Hd].
  rewrite filter_cons. simpl. destruct (decide (k = s)) as [->|Hne].
  - rewrite IH by done. apply dict_get_None in Hk. by rewrite Hk.
  - by apply IH.
Qed.

Lemma df_at_frame_get grp s col :
  NoDup (index grp) →
  df_at grp s col
  = match frame_get grp s col with Some v => Ok v | None => Raise KeyError end.
Proof.
  intros Hnd. unfold df_at, frame_get.
  rewrite filter_label_NoDup by done.
  destruct (dict_get (rows grp) s) as [r|]; simpl; [|done].
  by destruct (r !! col).
Qed.

Lemma frame_get_is_Some grp s col :
  wf_frame grp → s ∈ index grp → col < ncols grp →
  is_Some (frame_get grp s col).
Proof.
  intros [_ Hlen] Hs Hc. unfold frame_get.
  apply dict_get_is_Some in Hs as [r Hr]. rewrite Hr. simpl.
  apply lookup_lt_is_Some.
  apply dict_get_Some_elem in Hr.
  rewrite Forall_forall in Hlen. specialize (Hlen _ Hr). simpl in Hlen. lia.
Qed.

Lemma frame_get_index grp s col v :
  frame_get grp s col = Some v → s ∈ index grp.
Proof.
  unfold frame_get. intros H. apply dict_get_is_Some.
  destruct (dict_get (rows grp) s); [eauto | done].
Qed.

Lemma index_df_set grp s col v : index (df_set grp s col v) = index grp.
Proof.
  unfold index, df_set. simpl. rewrite <- list_fmap_compose.
  apply list_fmap_ext. intros i [k r] _. simpl. by destruct (decide (k = s)).
Qed.

Lemma ncols_df_set grp s col v : ncols (df_set grp s col v) = ncols grp.
Proof. done. Qed.

Lemma wf_df_set grp s col v : wf_frame grp → wf_frame (df_set grp s col v).
Proof.
  intros [Hnd Hlen]. split; [by rewrite index_df_set|].
  unfold df_set. simpl. apply Forall_fmap.
  eapply Forall_impl; [exact Hlen|]. intros [k r] Hr. simpl in *.
  destruct (decide (k = s)); simpl; [by rewrite length_insert | done].
Qed.

Lemma dict_get_fmap_row (d : list (string * list float)) s col v k :
  dict_get ((fun r => if decide (r.1 = s) then (r.1, <[col := v]> (r.2)) else r)
              <$> d) k
  = (fun r => if decide (k = s) then <[col := v]> r else r) <$> dict_get d k.
Proof.
  induction d as [|[k' r] d IH]; simpl; [done|].
  destruct (decide (k' = s)) as [->|Hne]; simpl.
  - destruct (decide (s = k)) as [<-|]; simpl; [|done].
    by rewrite decide_True.
  - destruct (decide (k' = k)) as [->|]; simpl; [|done].
    by rewrite decide_False.
Qed.

Lemma frame_get_df_set grp s col v s' col' :
  frame_get (df_set grp s col v) s' col'
  = if decide (s' = s ∧ col' = col)
    then (fun _ => v) <$> frame_get grp s' col'
    else frame_get grp s' col'.
Proof.
  unfold frame_get, df_set. simpl. rewrite dict_get_fmap_row.
  destruct (dict_get (rows grp) s') as [r|]; simpl.
  - destruct (decide (s' = s)) as [->|Hs].
    + destruct (decide (col' = col)) as [->|Hc].
      * rewrite decide_True by done.
        destruct (decide (col < length r)).
        -- rewrite list_lookup_insert_eq by done.
           by destruct (lookup_lt_is_Some_2 r col) as [? ->].
        -- rewrite list_insert_ge by lia.
           by rewrite (lookup_ge_None_2 r col) by lia.
      * rewrite decide_False by (by intros [_ ?]).
        by rewrite list_lookup_insert_ne.
    + by rewrite decide_False by (by intros [? _]).
  - by destruct (decide _).
Qed.

(** ** The neighbour scan, in closed form *)

Lemma candidates_cons grp col n ns :
  candidates grp col (n :: ns)
  = if is_candidate grp col n
    then (station n, distance_km n) :: candidates grp col ns
    else candidates grp col ns.
Proof.
  unfold candidates. rewrite filter_cons.
  destruct (decide _) as [H|H]; destruct (is_candidate grp col n);
    simpl in *; done.
Qed.

Lemma scan_closed_form grp col ns avail :
  wf_frame grp → col < ncols grp → length avail < MIN_NEIGHBORS →
  scan grp col ns avail
  = Ok (avail ++ take (MIN_NEIGHBORS - length avail) (candidates grp col ns)).
Proof.
  intros Hwf Hcol. revert avail.
  induction ns as [|n ns IH]; intros avail Hlt; simpl.
  - change (candidates grp col []) with (@nil (string * Q)).
    by rewrite take_nil, app_nil_r.
  - rewrite candidates_cons. unfold is_candidate. case_bool_decide as Hin.
    + destruct (frame_get_is_Some grp (station n) col Hwf Hin Hcol) as [v Hv].
      rewrite df_at_frame_get by apply Hwf. rewrite Hv. simpl.
      destruct v as [q|]; simpl.
      * case_bool_decide as Hfull.
        -- rewrite length_app in Hfull. simpl in Hfull.
           replace (MIN_NEIGHBORS - length avail) with 1 by lia.
           simpl. by rewrite take_0.
        -- rewrite IH by (rewrite length_app in *; simpl in *; lia).
           rewrite length_app. simpl. rewrite <- app_assoc. simpl.
           replace (MIN_NEIGHBORS - length avail)
             with (S (MIN_NEIGHBORS - (length avail + 1))) by
             (rewrite length_app in Hfull; simpl in Hfull; lia).
           done.
      * rewrite bool_decide_false by lia. by apply IH.
    + assert (frame_get grp (station n) col = None) as ->.
      { destruct (frame_get grp (station n) col) eqn:E; [|done].
        by apply frame_get_index in E. }
      by apply IH.
Qed.

Lemma scan_from_empty grp col ns :
  wf_frame grp → col < ncols grp →
  scan grp col ns [] = Ok (take MIN_NEIGHBORS (candidates grp col ns)).
Proof.
  intros Hwf Hcol. rewrite scan_closed_form; [done..|]. unfold MIN_NEIGHBORS. simpl. lia.
Qed.

Lemma quorum_found_take grp col ns :
  quorum_found grp col ns
  ↔ ¬ length (take MIN_NEIGHBORS (candidates grp col ns)) < MIN_NEIGHBORS.
Proof. unfold quorum_found. rewrite length_take. lia. Qed.

Lemma candidates_have_value grp col ns a :
  a ∈ candidates grp col ns → ∃ q, frame_get grp a.1 col = Some (Some q).
Proof.
  unfold candidates. rewrite list_elem_of_fmap. intros (n & -> & Hn).
  apply list_elem_of_filter in Hn as [Hc _]. simpl.
  unfold is_candidate in Hc.
  destruct (frame_get grp (station n) col) as [[q|]|]; [eauto | done..].
Qed.

Lemma mapM_result_ok {A B} (f : A → result B) (g : A → B) (l : list A) :
  (∀ x, x ∈ l → f x = Ok (g x)) → mapM f l = Ok (g <$> l).
Proof.
  induction l as [|x l IH]; intros H; simpl; [done|].
  rewrite (H x) by left. simpl.
  rewrite IH by (intros y Hy; apply H; by right). done.
Qed.

Lemma read_back_values grp col ns avail :
  NoDup (index grp) → avail ⊆ candidates grp col ns →
  mapM (fun a => df_at grp a.1 col) avail
  = Ok ((fun a => Some (value_of grp col a)) <$> avail).
Proof.
  intros Hnd Hsub. apply mapM_result_ok. intros a Ha.
  destruct (candidates_have_value grp col ns a (Hsub _ Ha)) as [q Hq].
  rewrite df_at_frame_get by done. unfold value_of. by rewrite Hq.
Qed.

(** ** Arithmetic of the weighted average *)

Lemma foldl_Qplus_acc (a : Q) (l : list Q) :
  (foldl Qplus a l == a + Qsum l)%Q.
Proof.
  unfold Qsum. revert a. induction l as [|x l IH]; intros a; simpl.
  - ring.
  - rewrite (IH (a + x)%Q), (IH (0 + x)%Q). ring.
Qed.

Lemma Qsum_cons (x : Q) (l : list Q) : (Qsum (x :: l) == x + Qsum l)%Q.
Proof. unfold Qsum at 1. simpl. rewrite foldl_Qplus_acc. ring. Qed.

Lemma py_sum_numbers (vals w : list Q) :
  py_sum (zip_with fmul (Some <$> vals) w) = Some (Qsum (zip_with Qmult vals w)).
Proof.
  unfold py_sum, Qsum. generalize 0%Q as a. revert w.
  induction vals as [|v vals IH]; intros [|x w] a; simpl;
    first [done | apply IH].
Qed.

Lemma idw_weight_nonneg (d : Q) : (0 <= idw_weight d)%Q.
Proof.
  unfold idw_weight. destruct (Qlt_le_dec 0 d) as [Hd|Hd]; [|apply Qle_refl].
  unfold IDW_POWER. simpl. apply Qlt_le_weak, Qlt_shift_div_l; nra.
Qed.

Lemma idw_weight_pos (d : Q) : (0 < d)%Q → (0 < idw_weight d)%Q.
Proof.
  intros Hd. unfold idw_weight. destruct (Qlt_le_dec 0 d) as [_|Hle]; [|lra].
  unfold IDW_POWER. simpl. apply Qlt_shift_div_l; nra.
Qed.

Lemma idw_weight_zero (d : Q) : (d <= 0)%Q → idw_weight d = 0%Q.
Proof.
  intros Hd. unfold idw_weight. destruct (Qlt_le_dec 0 d) as [Hlt|_]; [lra|done].
Qed.

Lemma Qsum_nonneg (w : list Q) : Forall (fun x => (0 <= x)%Q) w → (0 <= Qsum w)%Q.
Proof.
  induction 1 as [|x w Hx _ IH].
  - unfold Qsum. simpl. lra.
  - rewrite Qsum_cons. lra.
Qed.

(** Between [lo * sum w] and [hi * sum w]: the numerator of a weighted
    average whose values lie in [[lo, hi]] and whose weights are not negative. *)
Lemma weighted_sum_bounds (lo hi : Q) (vals w : list Q) :
  length vals = length w →
  Forall (fun v => (lo <= v <= hi)%Q) vals →
  Forall (fun x => (0 <= x)%Q) w →
  (lo * Qsum w <= Qsum (zip_with Qmult vals w) <= hi * Qsum w)%Q.
Proof.
  intros Hlen Hv. revert w Hlen.
  induction Hv as [|v vals [Hlo Hhi] _ IH]; intros [|x w] Hlen Hw;
    simpl in Hlen; try discriminate.
  - unfold Qsum. simpl. lra.
  - apply Forall_cons in Hw as [Hx Hw].
    destruct (IH w ltac:(lia) Hw) as [IHlo IHhi]. simpl.
    rewrite !Qsum_cons.
    assert (lo * x <= v * x)%Q by (apply Qmult_le_compat_r; lra).
    assert (v * x <= hi * x)%Q by (apply Qmult_le_compat_r; lra).
    lra.
Qed.

(** When the weights sum to zero the numerator is zero as well, so the
    division of line 157 is [0.0 / 0]. *)
Lemma idw_numerator_zero (vals w : list Q) :
  Forall (fun x => (0 <= x)%Q) w → (Qsum w == 0)%Q →
  (Qsum (zip_with Qmult vals w) == 0)%Q.
Proof.
  intros Hw. revert vals. induction Hw as [|x w Hx Hw IH]; intros vals Hz.
  - destruct vals; unfold Qsum; simpl; lra.
  - rewrite Qsum_cons in Hz. pose proof (Qsum_nonneg w Hw) as Hs.
    assert (x == 0)%Q as Hx0 by lra. assert (Qsum w == 0)%Q as Hw0 by lra.
    destruct vals as [|v vals]; simpl.
    + unfold Qsum. simpl. lra.
    + rewrite Qsum_cons, (IH vals Hw0), Hx0. ring.
Qed.

Lemma foldl_Qmin_le (a : Q) (l : list Q) :
  (foldl Qmin a l <= a)%Q ∧ Forall (fun x => (foldl Qmin a l <= x)%Q) l.
Proof.
  revert a. induction l as [|x l IH]; intros a; simpl.
  - split; [lra | constructor].
  - destruct (IH (Qmin a x)) as [H1 H2].
    pose proof (Q.le_min_l a x). pose proof (Q.le_min_r a x).
    split; [lra|]. constructor; [lra | done].
Qed.

Lemma foldl_Qmax_ge (a : Q) (l : list Q) :
  (a <= foldl Qmax a l)%Q ∧ Forall (fun x => (x <= foldl Qmax a l)%Q) l.
Proof.
  revert a. induction l as [|x l IH]; intros a; simpl.
  - split; [lra | constructor].
  - destruct (IH (Qmax a x)) as [H1 H2].
    pose proof (Q.le_max_l a x). pose proof (Q.le_max_r a x).
    split; [lra|]. constructor; [lra | done].
Qed.

Lemma Qlist_min_max_bounds (l : list Q) :
  Forall (fun v => (Qlist_min l <= v <= Qlist_max l)%Q) l.
Proof.
  destruct l as [|x l]; [constructor|]. simpl.
  destruct (foldl_Qmin_le x l) as [H1 H2], (foldl_Qmax_ge x l) as [H3 H4].
  constructor; [done|].
  rewrite Forall_forall in H2, H4. apply Forall_forall. intros v Hv.
  split; [by apply H2 | by apply H4].
Qed.

(** The estimate of line 157 on candidate values that are numbers. *)
Lemma idw_estimate_numbers (vals dists : list Q) :
  idw_estimate (Some <$> vals) dists
  = if Qeq_bool (Qsum (idw_weight <$> dists)) 0 then None
    else Some (Qsum (zip_with Qmult vals (idw_weight <$> dists))
               / Qsum (idw_weight <$> dists))%Q.
Proof. unfold idw_estimate, np_truediv. by rewrite py_sum_numbers. Qed.

Lemma idw_estimate_bounds (vals dists : list Q) (e : Q) :
  length vals = length dists →
  idw_estimate (Some <$> vals) dists = Some e →
  (Qlist_min vals <= e <= Qlist_max vals)%Q.
Proof.
  intros Hlen. rewrite idw_estimate_numbers.
  set (w := idw_weight <$> dists).
  destruct (Qeq_bool (Qsum w) 0) eqn:Hz; [done|]. intros [= <-].
  apply Qeq_bool_neq in Hz.
  assert (Forall (fun x => (0 <= x)%Q) w) as Hw.
  { apply Forall_fmap, Forall_true. intros d. apply idw_weight_nonneg. }
  pose proof (Qsum_nonneg w Hw) as Hs.
  assert (0 < Qsum w)%Q as Hpos by lra.
  destruct (weighted_sum_bounds (Qlist_min vals) (Qlist_max vals) vals w)
    as [Hlo Hhi];
    [unfold w; by rewrite length_fmap | apply Qlist_min_max_bounds | done |].
  split.
  - apply Qle_shift_div_l; [done|lra].
  - apply Qle_shift_div_r; [done|lra].
Qed.

(** ** The worker on a frame whose index has no repeated label *)

Section WorkerFacts.
Variables (t proc : string) (neighbors : list (string * list Neighbor)).

Lemma impute_cell_step cell st :
  wf_frame st.1 → cell.1 ∈ index st.1 → cell.2 < ncols st.1 →
  impute_cell t proc neighbors cell st = Ok (cell_step t proc neighbors cell st).
Proof.
  destruct cell as [s col], st as [grp log]. simpl. intros Hwf Hs Hcol.
  unfold impute_cell, cell_step. simpl.
  destruct (frame_get_is_Some grp s col Hwf Hs Hcol) as [v Hv].
  rewrite df_at_frame_get by apply Hwf. rewrite Hv. simpl.
  destruct v as [q|]; simpl; [done|].
  fold (neighbors_of neighbors s). rewrite scan_from_empty by done. simpl.
  destruct (decide (quorum_found grp col (neighbors_of neighbors s))) as [Hq|Hq].
  - rewrite bool_decide_false by (by apply quorum_found_take).
    rewrite (read_back_values grp col (neighbors_of neighbors s)).
    + done.
    + apply Hwf.
    + intros a Ha. eapply subseteq_take, Ha.
  - rewrite bool_decide_true; [done|].
    destruct (decide (length (take MIN_NEIGHBORS
                                (candidates grp col (neighbors_of neighbors s)))
                      < MIN_NEIGHBORS)); [done|].
    exfalso. by apply Hq, quorum_found_take.
Qed.

Lemma cell_step_wf cell st :
  wf_frame st.1 → wf_frame (cell_step t proc neighbors cell st).1.
Proof.
  intros Hwf. unfold cell_step.
  destruct (frame_get st.1 cell.1 cell.2) as [[q|]|]; [done| |done].
  destruct (decide _); simpl; [by apply wf_df_set | done].
Qed.

Lemma cell_step_index cell st :
  index (cell_step t proc neighbors cell st).1 = index st.1.
Proof.
  unfold cell_step.
  destruct (frame_get st.1 cell.1 cell.2) as [[q|]|]; [done| |done].
  destruct (decide _); simpl; [by rewrite index_df_set | done].
Qed.

Lemma cell_step_ncols cell st :
  ncols (cell_step t proc neighbors cell st).1 = ncols st.1.
Proof.
  unfold cell_step.
  destruct (frame_get st.1 cell.1 cell.2) as [[q|]|]; [done| |done].
  by destruct (decide _).
Qed.

(** A step writes no cell but its own. *)
Lemma cell_step_other cell st s col :
  (s, col) ≠ cell →
  frame_get (cell_step t proc neighbors cell st).1 s col = frame_get st.1 s col.
Proof.
  intros Hne. unfold cell_step.
  destruct (frame_get st.1 cell.1 cell.2) as [[q|]|]; [done| |done].
  destruct (decide _); simpl; [|done].
  rewrite frame_get_df_set. rewrite decide_False; [done|].
  intros [-> ->]. apply Hne. by destruct cell.
Qed.

(** A step logs nothing about a cell that is not its own. *)
Lemma cell_step_log_other cell st s col :
  (s, col) ≠ cell →
  entries_for t s col (cell_step t proc neighbors cell st).2 = entries_for t s col st.2.
Proof.
  intros Hne. unfold cell_step.
  destruct (frame_get st.1 cell.1 cell.2) as [[q|]|]; [done| |done].
  destruct (decide _); simpl; [done|].
  unfold entries_for. rewrite filter_app, length_app.
  rewrite filter_cons, filter_nil. simpl.
  rewrite decide_False; [simpl; lia|].
  intros (_ & <- & <-). apply Hne. by destruct cell.
Qed.

Lemma run_cells_wf cs st :
  wf_frame st.1 → wf_frame (run_cells t proc neighbors cs st).1.
Proof.
  revert st. induction cs as [|c cs IH]; intros st Hwf; simpl; [done|].
  by apply IH, cell_step_wf.
Qed.

Lemma run_cells_index cs st :
  index (run_cells t proc neighbors cs st).1 = index st.1.
Proof.
  revert st. induction cs as [|c cs IH]; intros st; simpl; [done|].
  by rewrite IH, cell_step_index.
Qed.

Lemma run_cells_ncols cs st :
  ncols (run_cells t proc neighbors cs st).1 = ncols st.1.
Proof.
  revert st. induction cs as [|c cs IH]; intros st; simpl; [done|].
  by rewrite IH, cell_step_ncols.
Qed.

Lemma run_cells_other cs st s col :
  (s, col) ∉ cs →
  frame_get (run_cells t proc neighbors cs st).1 s col = frame_get st.1 s col
  ∧ entries_for t s col (run_cells t proc neighbors cs st).2 = entries_for t s col st.2.
Proof.
  revert st. induction cs as [|c cs IH]; intros st Hnot; simpl; [done|].
  apply not_elem_of_cons in Hnot as [Hne Hnot].
  destruct (IH (cell_step t proc neighbors c st) Hnot) as [-> ->].
  by rewrite cell_step_other, cell_step_log_other.
Qed.

Lemma for_each_run_cells cs st :
  wf_frame st.1 →
  Forall (fun c => c.1 ∈ index st.1 ∧ c.2 < ncols st.1) cs →
  for_each cs (impute_cell t proc neighbors) st = Ok (run_cells t proc neighbors cs st).
Proof.
  revert st. induction cs as [|c cs IH]; intros st Hwf Hcs; simpl; [done|].
  apply Forall_cons in Hcs as [[Hs Hc] Hcs].
  rewrite impute_cell_step by done. simpl. apply IH.
  - by apply cell_step_wf.
  - by rewrite cell_step_index, cell_step_ncols.
Qed.

End WorkerFacts.

Lemma elem_of_cells grp s col :
  (s, col) ∈ cells grp ↔ s ∈ index grp ∧ col < ncols grp.
Proof.
  unfold cells. rewrite list_elem_of_bind. split.
  - intros (s' & Hin & Hs'). apply list_elem_of_bind in Hin as (c & Hin & Hc).
    apply list_elem_of_singleton in Hin as [= -> ->].
    apply elem_of_seq in Hc. split; [done|lia].
  - intros [Hs Hc]. exists s. split; [|done].
    apply list_elem_of_bind. exists col. split; [by apply list_elem_of_singleton|].
    apply elem_of_seq. lia.
Qed.

Lemma NoDup_cells grp : NoDup (index grp) → NoDup (cells grp).
Proof.
  intros Hnd. unfold cells. apply NoDup_bind; [| |done].
  - intros s1 s2 [s c] _ _ H1 H2.
    apply list_elem_of_bind in H1 as (c1 & H1 & _), H2 as (c2 & H2 & _).
    apply list_elem_of_singleton in H1, H2. congruence.
  - intros s _. apply NoDup_bind; [| |apply NoDup_seq].
    + intros c1 c2 [s' c] _ _ H1 H2.
      apply list_elem_of_singleton in H1, H2. congruence.
    + intros c _. apply NoDup_singleton.
Qed.

(** On a frame whose index has no repeated label the worker does not raise. *)
Lemma impute_slice_run_cells proc t grp neighbors :
  wf_frame grp →
  impute_slice proc (t, grp, neighbors)
  = Ok (run_cells t proc neighbors (cells grp) (grp, [])).
Proof.
  intros Hwf. unfold impute_slice. apply for_each_run_cells; [done|].
  apply Forall_forall. intros [s c] Hc. by apply elem_of_cells.
Qed.

(** The estimate is a number exactly when some candidate has a positive
    weight. *)
Lemma cell_estimate_is_Some neighbors grp s col :
  is_Some (cell_estimate neighbors grp s col)
  ↔ ¬ (Qsum (idw_weight <$> (cell_avail neighbors grp s col).*2) == 0)%Q.
Proof.
  unfold cell_estimate. rewrite (list_fmap_compose (value_of grp col) Some).
  rewrite idw_estimate_numbers.
  destruct (Qeq_bool _ 0) eqn:Hz.
  - apply Qeq_bool_eq in Hz. split; [by intros [? ?] | done].
  - apply Qeq_bool_neq in Hz. split; [done | eauto].
Qed.

(** What the worker does with one missing cell of a slice, in terms of the
    working copy [before] that the loops have produced when they reach it. *)
Lemma worker_cell_outcome proc t grp neighbors pre s col post :
  wf_frame grp →
  cells grp = pre ++ (s, col) :: post →
  frame_get grp s col = Some None →
  let before := run_cells t proc neighbors pre (grp, []) in
  ∃ out log,
    impute_slice proc (t, grp, neighbors) = Ok (out, log)
    ∧ for_each pre (impute_cell t proc neighbors) (grp, []) = Ok before
    ∧ frame_get before.1 s col = Some None
    ∧ if decide (quorum_found before.1 col (neighbors_of neighbors s))
      then frame_get out s col = Some (cell_estimate neighbors before.1 s col)
           ∧ entries_for t s col log = 0
      else frame_get out s col = Some None
           ∧ entries_for t s col log = 1.
Proof.
  intros Hwf Hcells Hmiss before.
  pose proof (NoDup_cells grp (proj1 Hwf)) as Hnd. rewrite Hcells in Hnd.
  apply NoDup_app in Hnd as (_ & Hpre & Hnd).
  apply NoDup_cons in Hnd as [Hpost _].
  assert ((s, col) ∉ pre) as Hpre' by (intros H; apply (Hpre _ H); left).
  destruct (run_cells_other t proc neighbors pre (grp, []) s col Hpre')
    as [Hget Hlog]. fold before in Hget, Hlog. simpl in Hget, Hlog.
  rewrite Hmiss in Hget.
  exists (run_cells t proc neighbors (cells grp) (grp, [])).1,
         (run_cells t proc neighbors (cells grp) (grp, [])).2.
  split; [rewrite impute_slice_run_cells by done; apply f_equal, surjective_pairing|].
  split.
  { apply for_each_run_cells; [done|]. apply Forall_forall. intros [s' c'] Hc. simpl.
    apply elem_of_cells. rewrite Hcells. apply elem_of_app. by left. }
  split; [done|].
  assert (run_cells t proc neighbors (cells grp) (grp, [])
          = run_cells t proc neighbors post
              (cell_step t proc neighbors (s, col) before)) as ->.
  { rewrite Hcells. unfold run_cells, before. by rewrite foldl_app. }
  destruct (run_cells_other t proc neighbors post
              (cell_step t proc neighbors (s, col) before) s col Hpost) as [-> ->].
  unfold cell_step. simpl. rewrite Hget.
  assert (s ∈ index before.1 ∧ col < ncols before.1) as [Hs Hc].
  { unfold before. rewrite run_cells_index, run_cells_ncols. simpl.
    apply elem_of_cells. rewrite Hcells. apply elem_of_app. right. left. }
  destruct (decide _) as [Hq|Hq]; simpl.
  - split; [|done]. rewrite frame_get_df_set, decide_True by done. by rewrite Hget.
  - split; [done|]. unfold entries_for in *.
    rewrite filter_app, length_app, Hlog. simpl.
    rewrite filter_cons, filter_nil. simpl. by rewrite decide_True.
Qed.

(** Unless the quorum is found with a zero weight sum, a missing cell ends
    as a number exactly when the quorum is found, and has one log line
    exactly when it is not. *)
Lemma worker_fills_iff_quorum proc t grp neighbors pre s col post out log :
  wf_frame grp →
  cells grp = pre ++ (s, col) :: post →
  frame_get grp s col = Some None →
  impute_slice proc (t, grp, neighbors) = Ok (out, log) →
  let before := (run_cells t proc neighbors pre (grp, [])).1 in
  ¬ (quorum_found before col (neighbors_of neighbors s)
     ∧ (Qsum (idw_weight <$> (cell_avail neighbors before s col).*2) == 0)%Q) →
  ((∃ e, frame_get out s col = Some (Some e))
   ↔ quorum_found before col (neighbors_of neighbors s))
  ∧ entries_for t s col log
    = if decide (quorum_found before col (neighbors_of neighbors s)) then 0 else 1.
Proof.
  intros Hwf Hcells Hmiss Hrun before Hnondeg.
  destruct (worker_cell_outcome proc t grp neighbors pre s col post Hwf Hcells Hmiss)
    as (out' & log' & Hrun' & _ & _ & Hout).
  rewrite Hrun in Hrun'. injection Hrun' as <- <-. fold before in Hout.
  destruct (decide (quorum_found before col (neighbors_of neighbors s))) as [Hq|Hq];
    destruct Hout as [Hout Hlog]; (split; [|done]).
  - split; [done|]. intros _.
    destruct (cell_estimate neighbors before s col) as [e|] eqn:He; [by exists e|].
    exfalso. apply Hnondeg. split; [done|].
    destruct (Qeq_dec (Qsum (idw_weight <$> (cell_avail neighbors before s col).*2)) 0)
      as [Hz|Hz]; [done|].
    apply cell_estimate_is_Some in Hz. rewrite He in Hz. by destruct Hz.
  - split; [|done]. intros [e He]. rewrite He in Hout. done.
Qed.

(** ** Stable sorting *)

Section StableSort.
Context {A K : Type} (leb : K -> K -> bool) (key : A -> K).
Hypothesis leb_total : forall a b, leb a b = true ∨ leb b a = true.
Hypothesis leb_trans : forall a b c, leb a b = true -> leb b c = true -> leb a c = true.

Lemma insert_by_Permutation x l : insert_by leb key x l ≡ₚ x :: l.
Proof.
  induction l as [|y l IH]; simpl; [done|].
  destruct (leb (key x) (key y)); [done|].
  rewrite IH. apply Permutation_swap.
Qed.

Lemma sort_by_Permutation l : sort_by leb key l ≡ₚ l.
Proof.
  induction l as [|x l IH]; simpl; [done|].
  by rewrite insert_by_Permutation, IH.
Qed.

Lemma insert_by_sorted x l :
  StronglySorted (key_le leb key) l →
  StronglySorted (key_le leb key) (insert_by leb key x l).
Proof using leb_total leb_trans.
  induction 1 as [|y l Hl IH Hy]; simpl.
  - repeat constructor.
  - destruct (leb (key x) (key y)) eqn:Hxy.
    + constructor; [by constructor|].
      constructor; [done|].
      eapply Forall_impl; [exact Hy|]. intros z Hz. by eapply leb_trans.
    + constructor; [done|].
      rewrite insert_by_Permutation. constructor; [|done].
      destruct (leb_total (key x) (key y)); [congruence|done].
Qed.

Lemma sort_by_sorted l : StronglySorted (key_le leb key) (sort_by leb key l).
Proof using leb_total leb_trans.
  induction l as [|x l IH]; simpl; [constructor|]. by apply insert_by_sorted.
Qed.



End StableSort.

(** ** Rounding is monotone *)

Lemma round_half_even_range (x : Q) :
  (Qfloor x <= round_half_even x <= Qfloor x + 1)%Z.
Proof.
  unfold round_half_even. destruct (_ ?= _)%Q; [destruct (Z.even _)|..]; lia.
Qed.

Lemma round_half_even_mono (x y : Q) :
  (x <= y)%Q → (round_half_even x <= round_half_even y)%Z.
Proof.
  intros Hxy. pose proof (Qfloor_resp_le x y Hxy) as Hf.
  pose proof (round_half_even_range x). pose proof (round_half_even_range y).
  destruct (decide (Qfloor x = Qfloor y)) as [Heq|Hne]; [|lia].
  unfold round_half_even. rewrite <- Heq.
  destruct (x - inject_Z (Qfloor x) ?= 1 # 2)%Q eqn:Hx;
    destruct (y - inject_Z (Qfloor x) ?= 1 # 2)%Q eqn:Hy;
    try (destruct (Z.even (Qfloor x))); try lia;
    first [apply Qeq_alt in Hx | apply Qlt_alt in Hx | apply Qgt_alt in Hx];
    first [apply Qeq_alt in Hy | apply Qlt_alt in Hy | apply Qgt_alt in Hy];
    lra.
Qed.

Lemma py_round4_mono (x y : Q) : (x <= y)%Q → (py_round4 x <= py_round4 y)%Q.
Proof.
  intros Hxy. unfold py_round4.
  apply Qmult_le_compat_r; [|done].
  rewrite <- Zle_Qle. apply round_half_even_mono. lra.
Qed.

(** ** Dictionaries: keys under assignment *)

Lemma dict_keys_set {V} (d : list (string * V)) k v :
  dict_keys (dict_set d k v)
  = if decide (k ∈ dict_keys d) then dict_keys d else dict_keys d ++ [k].
Proof.
  unfold dict_keys. induction d as [|[k' v'] d IH]; csimpl.
  - done.
  - destruct (decide (k' = k)) as [->|Hne]; csimpl.
    + by rewrite decide_True by left.
    + rewrite IH. destruct (decide (k ∈ d.*1)) as [Hin|Hin].
      * by rewrite decide_True by (by right).
      * by rewrite decide_False by (by rewrite not_elem_of_cons).
Qed.

Lemma dict_set_fresh {V} (d : list (string * V)) k v :
  k ∉ dict_keys d → dict_set d k v = d ++ [(k, v)].
Proof.
  unfold dict_keys. induction d as [|[k' v'] d IH]; simpl; [done|].
  rewrite not_elem_of_cons. intros [Hne Hin].
  rewrite decide_False by done. by rewrite IH.
Qed.

Lemma elem_of_dict_keys_set {V} (d : list (string * V)) k v s :
  s ∈ dict_keys (dict_set d k v) ↔ s = k ∨ s ∈ dict_keys d.
Proof.
  rewrite dict_keys_set. destruct (decide (k ∈ dict_keys d)).
  - propositional.
  - rewrite elem_of_app, list_elem_of_singleton. propositional.
Qed.

Lemma NoDup_dict_keys_set {V} (d : list (string * V)) k v :
  NoDup (dict_keys d) → NoDup (dict_keys (dict_set d k v)).
Proof.
  intros Hnd. rewrite dict_keys_set. destruct (decide (k ∈ dict_keys d)); [done|].
  apply NoDup_app. split_and!; [done| |apply NoDup_singleton].
  intros x Hx Hk. apply list_elem_of_singleton in Hk as ->. done.
Qed.

Lemma dict_get_fmap_key {V} (f : string → V) (ks : list string) k :
  dict_get ((fun s => (s, f s)) <$> ks) k
  = if decide (k ∈ ks) then Some (f k) else None.
Proof.
  induction ks as [|k' ks IH]; csimpl.
  - done.
  - destruct (decide (k' = k)) as [->|Hne].
    + by rewrite decide_True by left.
    + rewrite IH. destruct (decide (k ∈ ks)) as [Hin|Hin].
      * by rewrite decide_True by (by right).
      * by rewrite decide_False by (by rewrite not_elem_of_cons).
Qed.

Lemma foldl_dict_set_fresh {V} (f : string → V) (ks : list string)
    (acc : list (string * V)) :
  NoDup (dict_keys acc ++ ks) →
  foldl (fun d s => dict_set d s (f s)) acc ks
  = acc ++ ((fun s => (s, f s)) <$> ks).
Proof.
  revert acc. induction ks as [|k ks IH]; intros acc Hnd; simpl.
  - by rewrite app_nil_r.
  - assert (k ∉ dict_keys acc) as Hk.
    { apply NoDup_app in Hnd as (_ & Hd & _). intros Hin. apply (Hd _ Hin). left. }
    rewrite dict_set_fresh by done. rewrite IH.
    + by rewrite <- app_assoc.
    + unfold dict_keys in *. rewrite fmap_app. simpl. by rewrite <- app_assoc.
Qed.

(** ** The catalog step on a document of the documented shape *)










(** ** The catalog step on any document: what a returned mapping satisfies *)

Lemma for_each_invariant {A S} (P : S → Prop) (body : A → S → result S) xs s s' :
  (∀ x st st', P st → body x st = Ok st' → P st') →
  P s → for_each xs body s = Ok s' → P s'.
Proof.
  intros Hbody. revert s. induction xs as [|x xs IH]; intros s Hs; simpl.
  - by intros [= <-].
  - destruct (body x s) as [s1|e] eqn:Hb; simpl; [|done].
    apply IH. by eapply Hbody.
Qed.

Lemma load_item_info_ok valid item st st' :
  info_ok valid st → load_item valid item st = Ok st' → info_ok valid st'.
Proof.
  intros [Hnd Hsub]. unfold load_item.
  destruct (py_get item "stationID" PNone) as [sid|]; simpl; [|done].
  destruct (in_valid valid sid) as [[s|]|] eqn:Hin; simpl; [| |done].
  - destruct (py_get item "longitude" PNaN); simpl; [|done].
    destruct (py_get item "latitude" PNaN); simpl; [|done].
    destruct (py_get item "altitude" PNaN); simpl; [|done].
    intros [= <-]. split; simpl.
    + by apply NoDup_dict_keys_set.
    + intros s' Hs'. apply elem_of_dict_keys_set in Hs' as [->|Hs']; [|by apply Hsub].
      destruct sid; simpl in Hin; try done.
      destruct (decide (s0 ∈ valid)); by simplify_eq.
  - by intros [= <-].
Qed.

Lemma load_station_info_ok valid meta st :
  load_station_info valid meta = Ok st → info_ok valid st.
Proof.
  unfold load_station_info.
  destruct (py_get meta "data" (PList []) ≫= py_iter) as [grps|]; simpl; [|done].
  apply (for_each_invariant (info_ok valid)).
  - intros grp st0 st1 Hst0. unfold load_group.
    destruct (py_get grp "item" (PList []) ≫= py_iter) as [items|]; simpl; [|done].
    apply (for_each_invariant (info_ok valid)); [|done].
    intros item. apply load_item_info_ok.
  - split; simpl; [constructor|]. intros s Hs. by apply elem_of_nil in Hs.
Qed.

(** ** The neighbour graph on a station map without repeated keys *)



Lemma filter_ne_notin (l : list string) (x : string) :
  x ∉ l → filter (fun o => o ≠ x) l = l.
Proof.
  induction l as [|y l IH]; [done|]. rewrite not_elem_of_cons. intros [Hne Hx].
  rewrite filter_cons, decide_True by done. by rewrite IH.
Qed.

Lemma length_filter_ne (l : list string) (x : string) :
  NoDup l → x ∈ l → length (filter (fun o => o ≠ x) l) = length l - 1.
Proof.
  induction 1 as [|y l Hy Hnd IH]; intros Hx; [by apply elem_of_nil in Hx|].
  rewrite filter_cons. destruct (decide (y ≠ x)) as [Hne|Heq].
  - apply elem_of_cons in Hx as [->|Hx]; [done|]. simpl. rewrite IH by done.
    destruct l; [by apply elem_of_nil in Hx | simpl; lia].
  - apply dec_stable in Heq as ->. simpl. rewrite Nat.sub_0_r.
    by rewrite filter_ne_notin.
Qed.



Section BuilderFacts.
Variable metric : StationInfo -> StationInfo -> Q.
Variable station_info : list (string * StationInfo).
Hypothesis keys_NoDup : NoDup (dict_keys station_info).

Lemma compute_and_cache_neighbors_closed :
  compute_and_cache_neighbors metric station_info
  = (fun sid => (sid, neighbor_list metric station_info sid))
      <$> dict_keys station_info.
Proof using keys_NoDup.
  unfold compute_and_cache_neighbors.
  by rewrite (foldl_dict_set_fresh (neighbor_list metric station_info)).
Qed.

Lemma neighbors_keys :
  dict_keys (compute_and_cache_neighbors metric station_info)
  = dict_keys station_info.
Proof using keys_NoDup.
  rewrite compute_and_cache_neighbors_closed. unfold dict_keys at 1.
  rewrite <- list_fmap_compose. apply list_fmap_id.
Qed.

Lemma neighbors_lookup sid :
  dict_get (compute_and_cache_neighbors metric station_info) sid
  = if decide (sid ∈ dict_keys station_info)
    then Some (neighbor_list metric station_info sid) else None.
Proof using keys_NoDup.
  rewrite compute_and_cache_neighbors_closed. apply dict_get_fmap_key.
Qed.

Lemma sorted_dists_Permutation sid :
  sorted_dists metric station_info sid
  ≡ₚ (fun o => (o, distance_3d metric station_info sid o))
       <$> filter (fun o => o ≠ sid) (dict_keys station_info).
Proof. apply sort_by_Permutation. Qed.

Lemma neighbor_list_stations sid :
  station <$> neighbor_list metric station_info sid
  ≡ₚ filter (fun o => o ≠ sid) (dict_keys station_info).
Proof.
  unfold neighbor_list. rewrite <- list_fmap_compose.
  rewrite sorted_dists_Permutation, <- list_fmap_compose. by rewrite list_fmap_id.
Qed.

Lemma neighbor_list_length sid :
  sid ∈ dict_keys station_info →
  length (neighbor_list metric station_info sid)
  = length (dict_keys station_info) - 1.
Proof using keys_NoDup.
  intros Hsid. rewrite <- (length_fmap station), neighbor_list_stations.
  by apply length_filter_ne.
Qed.







End BuilderFacts.

(** ** The controller: the first failure wins *)

Lemma mapM_result_first_failure {A B} (f : A → result B) pre x post e :
  Forall (fun y => is_ok (f y) = true) pre → f x = Raise e →
  mapM f (pre ++ x :: post) = Raise e.
Proof.
  intros Hpre Hx. induction Hpre as [|y pre Hy _ IH]; simpl.
  - by rewrite Hx.
  - destruct (f y); [|done]. simpl. by rewrite IH.
Qed.

(** ** Grouping is a permutation *)

Lemma filter_disjoint_app {A} (P Q : A → Prop)
    `{!∀ x, Decision (P x)} `{!∀ x, Decision (Q x)} (l : list A) :
  (∀ x, P x → Q x → False) →
  filter P l ++ filter Q l ≡ₚ filter (fun x => P x ∨ Q x) l.
Proof.
  intros Hdisj. induction l as [|x l IH]; [done|].
  rewrite !filter_cons.
  destruct (decide (P x)) as [HP|HP], (decide (Q x)) as [HQ|HQ].
  - destruct (Hdisj x HP HQ).
  - rewrite decide_True by (by left). simpl. by rewrite IH.
  - rewrite decide_True by (by right). rewrite <- Permutation_middle. by rewrite IH.
  - rewrite decide_False by propositional. done.
Qed.

Lemma group_by_Permutation {A} (key : A → option string) (ks : list string)
    (l : list A) :
  NoDup ks →
  concat ((fun k => filter (fun x => key x = Some k) l) <$> ks)
  ≡ₚ filter (fun x => key_in ks (key x)) l.
Proof.
  induction 1 as [|k ks Hk Hnd IH]; csimpl.
  - induction l as [|x l IHl]; [done|]. rewrite filter_cons.
    rewrite decide_False; [done|].
    destruct (key x); simpl; [apply not_elem_of_nil | tauto].
  - rewrite IH. rewrite filter_disjoint_app.
    + apply reflexive_eq, list_filter_iff. intros x.
      destruct (key x) as [k'|]; simpl; [|propositional].
      rewrite elem_of_cons. propositional.
    + intros x Hx Hin. rewrite Hx in Hin. done.
Qed.

Lemma filter_all {A} (P : A → Prop) `{!∀ x, Decision (P x)} (l : list A) :
  Forall P l → filter P l = l.
Proof.
  induction 1 as [|x l Hx _ IH]; [done|].
  by rewrite filter_cons, decide_True, IH.
Qed.

Lemma group_keys_Permutation df0 : group_keys df0 ≡ₚ remove_dups (omap DataTime df0).
Proof. apply sort_by_Permutation. Qed.

Lemma NoDup_group_keys df0 : NoDup (group_keys df0).
Proof. rewrite group_keys_Permutation. apply NoDup_remove_dups. Qed.

Lemma elem_of_group_keys df0 t :
  t ∈ group_keys df0 ↔ ∃ r, r ∈ df0 ∧ DataTime r = Some t.
Proof.
  rewrite group_keys_Permutation, elem_of_remove_dups, list_elem_of_omap.
  propositional.
Qed.

(** With every timestamp present, the groups together hold every row once. *)
Lemma groups_cover df0 :
  Forall (fun r => is_Some (DataTime r)) df0 →
  concat ((fun t => filter (fun r => DataTime r = Some t) df0) <$> group_keys df0)
  ≡ₚ df0.
Proof.
  intros Hts. rewrite group_by_Permutation by apply NoDup_group_keys.
  apply reflexive_eq, filter_all.
  rewrite Forall_forall in Hts. apply Forall_forall. intros r Hr.
  destruct (Hts r Hr) as [t Ht]. rewrite Ht. simpl.
  apply elem_of_group_keys. eauto.
Qed.

Lemma slice_of_index nfeat df0 t :
  (fun s => (s, Some t)) <$> index (slice_of nfeat df0 t)
  = flat_pairs (filter (fun r => DataTime r = Some t) df0).
Proof.
  unfold index, slice_of, flat_pairs. simpl. rewrite <- !list_fmap_compose.
  apply list_fmap_ext. intros i r Hr. simpl.
  apply list_elem_of_lookup_2, list_elem_of_filter in Hr as [-> _]. done.
Qed.

Lemma slice_of_wf nfeat df0 t :
  NoDup (flat_pairs df0) →
  Forall (fun r => length (features r) = nfeat) df0 →
  wf_frame (slice_of nfeat df0 t).
Proof.
  intros Hnd Hlen. split.
  - apply (NoDup_fmap_1 (fun s => (s, Some t))). rewrite slice_of_index.
    unfold flat_pairs in *. revert Hnd. clear. induction df0 as [|r l IH]; [done|].
    csimpl. rewrite NoDup_cons. intros [Hr Hnd]. rewrite filter_cons.
    destruct (decide _); csimpl; [|by apply IH].
    apply NoDup_cons. split; [|by apply IH].
    intros Hin. apply Hr. apply list_elem_of_fmap in Hin as (r' & Heq & Hr').
    apply list_elem_of_filter in Hr' as [_ Hr']. apply list_elem_of_fmap. eauto.
  - unfold slice_of. simpl. apply Forall_fmap.
    apply Forall_forall. intros r Hr. simpl.
    apply list_elem_of_filter in Hr as [_ Hr].
    rewrite Forall_forall in Hlen. by apply Hlen.
Qed.

Lemma zip_with_fmap_same {A B C} (f : A → B → C) (g : A → B) (l : list A) :
  zip_with f l (g <$> l) = (fun x => f x (g x)) <$> l.
Proof. induction l as [|x l IH]; csimpl; [done|]. by rewrite IH. Qed.

Lemma merge_left_pairs imputed station_meta out :
  NoDup (meta_StationID <$> station_meta) →
  merge_left imputed station_meta = Ok out →
  out_pairs out = (fun r => (r.1.1, Some r.1.2)) <$> imputed.
Proof.
  intros Hnd. unfold merge_left. destruct station_meta as [|m0 ms0]; [done|].
  intros [= <-]. set (meta := m0 :: ms0) in *. clearbody meta.
  induction imputed as [|r imputed IH]; [done|].
  rewrite bind_cons. unfold out_pairs in *. rewrite fmap_app, IH. csimpl. f_equal.
  assert (length (filter (fun m => meta_StationID m = r.1.1) meta) ≤ 1) as Hlen.
  { clear -Hnd. induction meta as [|m meta IHm]; [simpl; lia|].
    csimpl in Hnd. apply NoDup_cons in Hnd as [Hm Hnd]. rewrite filter_cons.
    destruct (decide _) as [Heq|]; [|by apply IHm].
    simpl. rewrite (proj2 (length_zero_iff_nil _)); [lia|].
    destruct (filter _ meta) as [|m' ?] eqn:Hf; [done|]. exfalso. apply Hm.
    assert (m' ∈ filter (fun m1 => meta_StationID m1 = r.1.1) meta) as Hin
      by (rewrite Hf; left).
    apply list_elem_of_filter in Hin as [Hid Hin]. rewrite Heq, <- Hid.
    apply list_elem_of_fmap. eauto. }
  destruct (filter _ meta) as [|m [|m' ms]]; simpl in *; [done|done|lia].
Qed.

(** ** A repeated label makes the worker raise

    On a rectangular frame a read of a label of the index returns a float or
    raises ValueError; a label that occurs twice raises it when the loops
    reach one of its cells, unless an earlier read has raised it already. *)

Lemma filter_label_fst (l : list (string * list float)) s :
  (filter (fun r => r.1 = s) l).*1 = filter (fun k => k = s) l.*1.
Proof.
  induction l as [|[k r] l IH]; [done|]. csimpl. rewrite !filter_cons. simpl.
  destruct (decide (k = s)); csimpl; by rewrite IH.
Qed.

Lemma occurrences_rows s grp :
  length (filter (fun r => r.1 = s) (rows grp)) = occurrences s grp.
Proof.
  unfold occurrences, index. by rewrite <- filter_label_fst, length_fmap.
Qed.

Lemma df_at_repeated grp s col :
  2 ≤ occurrences s grp → df_at grp s col = Raise ValueError.
Proof.
  rewrite <- occurrences_rows. unfold df_at.
  destruct (filter _ (rows grp)) as [|r [|r' l]]; simpl; [lia..|done].
Qed.

Lemma df_at_in_index grp s col :
  rectangular grp → s ∈ index grp → col < ncols grp →
  (∃ v, df_at grp s col = Ok v) ∨ df_at grp s col = Raise ValueError.
Proof.
  intros Hrect Hs Hcol. unfold df_at.
  destruct (filter (fun r => r.1 = s) (rows grp)) as [|r [|r' l]] eqn:Hf.
  - exfalso. unfold index in Hs. apply list_elem_of_fmap in Hs as (r & -> & Hr).
    assert (r ∈ filter (fun r0 => r0.1 = r.1) (rows grp)) as Hin
      by (by apply list_elem_of_filter).
    rewrite Hf in Hin. by apply elem_of_nil in Hin.
  - left. assert (r ∈ rows grp) as Hr.
    { assert (r ∈ filter (fun r0 => r0.1 = s) (rows grp)) as Hin by (rewrite Hf; left).
      by apply list_elem_of_filter in Hin as [_ ?]. }
    unfold rectangular in Hrect. rewrite Forall_forall in Hrect.
    destruct (lookup_lt_is_Some_2 r.2 col) as [v Hv]; [rewrite (Hrect r Hr); lia|].
    rewrite Hv. eauto.
  - by right.
Qed.

Lemma scan_ok_or_ValueError grp col ns avail :
  rectangular grp → col < ncols grp →
  Forall (fun a => a.1 ∈ index grp) avail →
  (∃ avail', scan grp col ns avail = Ok avail'
             ∧ Forall (fun a => a.1 ∈ index grp) avail')
  ∨ scan grp col ns avail = Raise ValueError.
Proof.
  intros Hrect Hcol. revert avail.
  induction ns as [|n ns IH]; intros avail Havail; simpl; [eauto|].
  case_bool_decide as Hin; [|by apply IH].
  destruct (df_at_in_index grp (station n) col Hrect Hin Hcol) as [[v ->]| ->];
    simpl; [|by right].
  assert (Forall (fun a => a.1 ∈ index grp)
            (if notna v then avail ++ [(station n, distance_km n)] else avail)) as H'.
  { destruct (notna v); [|done]. apply Forall_app. split; [done|].
    by repeat constructor. }
  case_bool_decide; [eauto | by apply IH].
Qed.

Lemma mapM_df_at_ok_or_ValueError grp col (avail : list (string * Q)) :
  rectangular grp → col < ncols grp →
  Forall (fun a => a.1 ∈ index grp) avail →
  (∃ vals, mapM (fun a => df_at grp a.1 col) avail = Ok vals)
  ∨ mapM (fun a => df_at grp a.1 col) avail = Raise ValueError.
Proof.
  intros Hrect Hcol. induction 1 as [|a avail Ha _ IH]; simpl; [eauto|].
  destruct (df_at_in_index grp a.1 col Hrect Ha Hcol) as [[v ->]| ->];
    simpl; [|by right].
  destruct IH as [[vals ->]| ->]; simpl; eauto.
Qed.

Lemma rectangular_df_set grp s col v :
  rectangular grp → rectangular (df_set grp s col v).
Proof.
  intros Hrect. unfold rectangular, df_set in *. simpl. apply Forall_fmap.
  eapply Forall_impl; [exact Hrect|]. intros [k r] Hr. simpl in *.
  destruct (decide (k = s)); simpl; [by rewrite length_insert | done].
Qed.

Lemma impute_cell_ok_or_ValueError t proc neighbors grp log s col :
  rectangular grp → s ∈ index grp → col < ncols grp →
  (∃ grp' log', impute_cell t proc neighbors (s, col) (grp, log) = Ok (grp', log')
                ∧ index grp' = index grp ∧ ncols grp' = ncols grp
                ∧ rectangular grp')
  ∨ impute_cell t proc neighbors (s, col) (grp, log) = Raise ValueError.
Proof.
  intros Hrect Hs Hcol. unfold impute_cell.
  destruct (df_at_in_index grp s col Hrect Hs Hcol) as [[v ->]| ->];
    simpl; [|by right].
  destruct (isna v); [|left; eauto 10].
  destruct (scan_ok_or_ValueError grp col (default [] (dict_get neighbors s)) []
              Hrect Hcol) as [(avail & -> & Havail)| ->]; simpl;
    [constructor| |by right].
  case_bool_decide; [left; eauto 10|].
  destruct (mapM_df_at_ok_or_ValueError grp col avail Hrect Hcol Havail)
    as [[vals ->]| ->]; simpl; [|by right].
  left. eexists _, _. split; [done|].
  split; [apply index_df_set|]. split; [done|]. by apply rectangular_df_set.
Qed.

Lemma for_each_cons {A S} (body : A → S → result S) x xs s :
  for_each (x :: xs) body s = body x s ≫= for_each xs body.
Proof. done. Qed.

Lemma for_each_cells_repeated t proc neighbors grp log cs s col :
  rectangular grp →
  Forall (fun c => c.1 ∈ index grp ∧ c.2 < ncols grp) cs →
  (s, col) ∈ cs → 2 ≤ occurrences s grp →
  for_each cs (impute_cell t proc neighbors) (grp, log) = Raise ValueError.
Proof.
  intros Hrect Hcs Hin Hrep. revert grp log Hrect Hcs Hrep.
  induction cs as [|[s' c'] cs IH]; intros grp log Hrect Hcs Hrep;
    [by apply elem_of_nil in Hin|].
  apply Forall_cons in Hcs as [[Hs' Hc'] Hcs]. simpl in Hs', Hc'.
  rewrite for_each_cons.
  destruct (decide ((s, col) = (s', c'))) as [[= <- <-]|Hne].
  - unfold impute_cell. by rewrite df_at_repeated.
  - destruct (impute_cell_ok_or_ValueError t proc neighbors grp log s' c' Hrect Hs' Hc')
      as [(grp' & log' & -> & Hidx & Hnc & Hrect')| ->]; simpl; [|done].
    apply IH; [|done| |].
    + apply elem_of_cons in Hin as [Heq|Hin]; [done|done].
    + by rewrite Hidx, Hnc.
    + unfold occurrences in *. by rewrite Hidx.
Qed.

Lemma impute_slice_repeated_label proc t grp neighbors s :
  rectangular grp → 0 < ncols grp → 2 ≤ occurrences s grp →
  impute_slice proc (t, grp, neighbors) = Raise ValueError.
Proof.
  intros Hrect Hcol Hrep. unfold impute_slice.
  apply (for_each_cells_repeated t proc neighbors grp [] (cells grp) s 0);
    [done| | |done].
  - apply Forall_forall. intros [s' c'] Hc. by apply elem_of_cells.
  - apply elem_of_cells. split; [|done].
    unfold occurrences in Hrep.
    destruct (filter (fun k => k = s) (index grp)) as [|k l] eqn:Hf; [simpl in Hrep; lia|].
    assert (k ∈ filter (fun k => k = s) (index grp)) as Hk by (rewrite Hf; left).
    by apply list_elem_of_filter in Hk as [-> ?].
Qed.

Lemma for_each_cells_ok_or_ValueError t proc neighbors grp log cs :
  rectangular grp →
  Forall (fun c => c.1 ∈ index grp ∧ c.2 < ncols grp) cs →
  (∃ st, for_each cs (impute_cell t proc neighbors) (grp, log) = Ok st)
  ∨ for_each cs (impute_cell t proc neighbors) (grp, log) = Raise ValueError.
Proof.
  intros Hrect Hcs. revert grp log Hrect Hcs.
  induction cs as [|[s c] cs IH]; intros grp log Hrect Hcs; [left; by eexists|].
  apply Forall_cons in Hcs as [[Hs Hc] Hcs]. simpl in Hs, Hc.
  rewrite for_each_cons.
  destruct (impute_cell_ok_or_ValueError t proc neighbors grp log s c Hrect Hs Hc)
    as [(grp' & log' & -> & Hidx & Hnc & Hrect')| ->]; simpl; [|by right].
  apply IH; [done|]. by rewrite Hidx, Hnc.
Qed.

Lemma impute_slice_ok_or_ValueError proc t grp neighbors :
  rectangular grp →
  (∃ res, impute_slice proc (t, grp, neighbors) = Ok res)
  ∨ impute_slice proc (t, grp, neighbors) = Raise ValueError.
Proof.
  intros Hrect. unfold impute_slice. apply for_each_cells_ok_or_ValueError; [done|].
  apply Forall_forall. intros [s' c'] Hc. by apply elem_of_cells.
Qed.

Lemma mapM_raises_ValueError {A B} (f : A → result B) (xs : list A) (x : A) :
  (∀ y, y ∈ xs → (∃ v, f y = Ok v) ∨ f y = Raise ValueError) →
  x ∈ xs → f x = Raise ValueError →
  mapM f xs = Raise ValueError.
Proof.
  intros Hall Hx Hfx. induction xs as [|y xs IH]; [by apply elem_of_nil in Hx|].
  simpl. destruct (Hall y ltac:(left)) as [[v Hv]|Hv]; rewrite Hv; simpl; [|done].
  apply elem_of_cons in Hx as [->|Hx]; [congruence|].
  rewrite IH; [done| |done]. intros z Hz. apply Hall. by right.
Qed.

Lemma slice_of_rectangular nfeat df0 t :
  Forall (fun r => length (features r) = nfeat) df0 →
  rectangular (slice_of nfeat df0 t).
Proof.
  intros Hlen. unfold rectangular, slice_of. simpl. apply Forall_fmap.
  apply Forall_forall. intros r Hr. simpl.
  apply list_elem_of_filter in Hr as [_ Hr].
  rewrite Forall_forall in Hlen. by apply Hlen.
Qed.

Lemma slice_of_occurrences nfeat df0 s t :
  occurrences s (slice_of nfeat df0 t)
  = length (filter (fun p => p = (s, Some t)) (flat_pairs df0)).
Proof.
  unfold occurrences, index, slice_of, flat_pairs. simpl.
  induction df0 as [|r df0 IH]; [done|]. csimpl. rewrite !filter_cons.
  destruct (decide (DataTime r = Some t)) as [Ht|Ht]; csimpl.
  - rewrite filter_cons. destruct (decide (StationID r = s)) as [Hs|Hs].
    + rewrite decide_True by (by rewrite Ht, Hs). simpl. by rewrite IH.
    + rewrite decide_False by congruence. done.
  - rewrite decide_False by congruence. done.
Qed.

(** A pair of station and timestamp that occurs twice in the flattened table
    ends the run with the ValueError of its slice. *)
Lemma run_from_table_repeated_pair proc_of nfeat df0 station_meta neighbors s t :
  0 < nfeat →
  Forall (fun r => length (features r) = nfeat) df0 →
  2 ≤ length (filter (fun p => p = (s, Some t)) (flat_pairs df0)) →
  run_from_table proc_of nfeat df0 station_meta neighbors = Raise ValueError.
Proof.
  intros Hn Hlen Hrep. unfold run_from_table, make_groups.
  destruct df0 as [|r0 df0']; [simpl in Hrep; lia|].
  set (df0 := r0 :: df0') in *. clearbody df0. simpl. unfold exe_map.
  rewrite (mapM_raises_ValueError (worker proc_of) _ (t, slice_of nfeat df0 t, neighbors));
    [done| | |].
  - intros y Hy. apply list_elem_of_fmap in Hy as (t' & -> & _).
    unfold worker. apply impute_slice_ok_or_ValueError. by apply slice_of_rectangular.
  - apply list_elem_of_fmap. exists t. split; [done|]. apply elem_of_group_keys.
    destruct (filter (fun p => p = (s, Some t)) (flat_pairs df0)) as [|p l] eqn:Hf;
      [simpl in Hrep; lia|].
    assert (p ∈ filter (fun p => p = (s, Some t)) (flat_pairs df0)) as Hp
      by (rewrite Hf; left).
    apply list_elem_of_filter in Hp as [-> Hp].
    apply list_elem_of_fmap in Hp as (r & [= Hs Ht] & Hr). eauto.
  - unfold worker. simpl. apply (impute_slice_repeated_label _ _ _ _ s).
    + by apply slice_of_rectangular.
    + done.
    + by rewrite slice_of_occurrences.
Qed.

(** ** The flattener: what a file does to the run *)

Lemma for_each_app {A S} (body : A → S → result S) xs ys s :
  for_each (xs ++ ys) body s = for_each xs body s ≫= for_each ys body.
Proof.
  revert s. induction xs as [|x xs IH]; intros s; simpl; [done|].
  destruct (body x s); simpl; [apply IH | done].
Qed.

Lemma for_each_raises {A S} (body : A → S → result S) xs x s :
  x ∈ xs → (∀ s', is_ok (body x s') = false) →
  is_ok (for_each xs body s) = false.
Proof.
  intros Hx Hbody. apply list_elem_of_split in Hx as (pre & post & ->).
  rewrite for_each_app. destruct (for_each pre body s) as [s'|]; simpl; [|done].
  specialize (Hbody s'). by destruct (body x s').
Qed.

Lemma for_each_skip {A S} (body : A → S → result S) pre x post s :
  (∀ s', body x s' = Ok s') →
  for_each (pre ++ x :: post) body s = for_each (pre ++ post) body s.
Proof.
  intros Hx. rewrite !for_each_app.
  destruct (for_each pre body s) as [s'|]; simpl; [|done]. by rewrite Hx.
Qed.

Lemma select_items_unrecognized data :
  recognized_shape data = false → select_items data = PList [].
Proof.
  destruct data as [| | | | |l|kv]; simpl; try done.
  destruct (has_key kv "data"); simpl; [done|].
  by destruct (has_key kv "StationID" && has_key kv "dts").
Qed.

Lemma flatten_file_unrecognized sid data :
  recognized_shape data = false → flatten_file sid (Some data) = Ok [].
Proof. intros H. unfold flatten_file. by rewrite select_items_unrecognized. Qed.


Lemma worker_on_slice proc_of nfeat df0 neighbors t :
  NoDup (flat_pairs df0) →
  Forall (fun r => length (features r) = nfeat) df0 →
  worker proc_of (t, slice_of nfeat df0 t, neighbors)
  = Ok (run_cells t (proc_of t) neighbors (cells (slice_of nfeat df0 t))
          (slice_of nfeat df0 t, [])).
Proof.
  intros Hnd Hlen. unfold worker. simpl.
  apply impute_slice_run_cells. by apply slice_of_wf.
Qed.

Lemma assigned_pairs proc_of nfeat df0 neighbors t :
  (fun r : string * string * list float => (r.1.1, Some r.1.2))
    <$> assign_time t
          (run_cells t (proc_of t) neighbors (cells (slice_of nfeat df0 t))
             (slice_of nfeat df0 t, [])).1
  = flat_pairs (filter (fun r => DataTime r = Some t) df0).
Proof.
  rewrite <- slice_of_index with (nfeat := nfeat).
  pose proof (run_cells_index t (proc_of t) neighbors
                (cells (slice_of nfeat df0 t)) (slice_of nfeat df0 t, [])) as Hi.
  cbn [fst] in Hi. rewrite <- Hi.
  unfold assign_time, index. rewrite <- !list_fmap_compose. done.
Qed.

Lemma pairs_of_groups (F : string → list (string * string * list float))
    (keys : list string) (df0 : list FlatRow) :
  (∀ t, (fun r : string * string * list float => (r.1.1, Some r.1.2)) <$> F t
        = flat_pairs (filter (fun r => DataTime r = Some t) df0)) →
  (fun r : string * string * list float => (r.1.1, Some r.1.2))
    <$> concat (F <$> keys)
  = flat_pairs (concat ((fun t => filter (fun r => DataTime r = Some t) df0) <$> keys)).
Proof.
  intros HF. induction keys as [|t keys IH]; csimpl; [done|].
  unfold flat_pairs in *. by rewrite !fmap_app, HF, IH.
Qed.

(** ** The error monad: what a returned value tells *)

Lemma bind_Ok_inv {A B} (m : result A) (k : A → result B) y :
  m ≫= k = Ok y → ∃ x, m = Ok x ∧ k x = Ok y.
Proof. destruct m as [x|e]; [by exists x | done]. Qed.

Lemma mapM_result_Forall2 {A B} (f : A → result B) (l : list A) (ys : list B) :
  mapM f l = Ok ys → Forall2 (fun x y => f x = Ok y) l ys.
Proof.
  revert ys. induction l as [|x l IH]; intros ys; simpl.
  - intros [= <-]. constructor.
  - destruct (f x) as [y|e] eqn:Hx; simpl; [|done].
    destruct (mapM f l) as [k|e] eqn:Hl; simpl; [|done].
    intros [= <-]. constructor; [done | by apply IH].
Qed.

Lemma mapM_not_ok {A B} (f : A → result B) (l : list A) (x : A) :
  x ∈ l → is_ok (f x) = false → is_ok (mapM f l) = false.
Proof.
  intros Hx Hf. induction l as [|y l IH]; [by apply elem_of_nil in Hx|].
  simpl. destruct (f y) as [v|e] eqn:Hy; simpl; [|done].
  apply elem_of_cons in Hx as [->|Hx]; [by rewrite Hy in Hf|].
  specialize (IH Hx). by destruct (mapM f l).
Qed.

(** Two nested loops visit the concatenation of the inner lists. *)
Lemma for_each_nested {A B S} (sub : A → result (list B)) (body : B → S → result S)
    (xs : list A) (s s' : S) :
  for_each xs (fun x st => ys ← sub x; for_each ys body st) s = Ok s' →
  ∃ yss, mapM sub xs = Ok yss ∧ for_each (concat yss) body s = Ok s'.
Proof.
  revert s. induction xs as [|x xs IH]; intros s H.
  - injection H as <-. by exists [].
  - rewrite for_each_cons in H. apply bind_Ok_inv in H as (s1 & H1 & H).
    apply bind_Ok_inv in H1 as (ys & Hys & H1).
    destruct (IH _ H) as (yss & Hyss & Hrest).
    exists (ys :: yss). split.
    + simpl. rewrite Hys. simpl. by rewrite Hyss.
    + simpl. rewrite for_each_app, H1. done.
Qed.

Lemma for_each_nested_eq {A B S} (sub : A → result (list B)) (body : B → S → result S)
    (xs : list A) (yss : list (list B)) (s : S) :
  mapM sub xs = Ok yss →
  for_each xs (fun x st => ys ← sub x; for_each ys body st) s
  = for_each (concat yss) body s.
Proof.
  revert yss s. induction xs as [|x xs IH]; intros yss s H.
  - by injection H as <-.
  - simpl in H. apply bind_Ok_inv in H as (ys & Hys & H).
    apply bind_Ok_inv in H as (yss' & Hyss & H). injection H as <-.
    rewrite for_each_cons. simpl. rewrite for_each_app, Hys. simpl.
    destruct (for_each ys body s); simpl; [|done]. by apply IH.
Qed.

(** ** The order of strings *)

Lemma String_compare_refl s : String.compare s s = Eq.
Proof.
  induction s as [|c s IH]; simpl; [done|].
  assert (Ascii.compare c c = Eq) as ->; [|done].
  unfold Ascii.compare. apply N.compare_refl.
Qed.

Lemma String_leb_refl s : String.leb s s = true.
Proof. unfold String.leb. by rewrite String_compare_refl. Qed.

Lemma String_compare_trans_le a b c :
  String.compare a b ≠ Gt → String.compare b c ≠ Gt → String.compare a c ≠ Gt.
Proof.
  revert b c. induction a as [|x a IH]; intros [|y b] [|z c]; simpl; try done.
  unfold Ascii.compare.
  destruct (N.compare_spec (Ascii.N_of_ascii x) (Ascii.N_of_ascii y)) as [Hxy|Hxy|Hxy];
    destruct (N.compare_spec (Ascii.N_of_ascii y) (Ascii.N_of_ascii z)) as [Hyz|Hyz|Hyz];
    destruct (N.compare_spec (Ascii.N_of_ascii x) (Ascii.N_of_ascii z)) as [Hxz|Hxz|Hxz];
    try done; try lia.
  apply IH.
Qed.

Lemma String_leb_trans a b c :
  String.leb a b = true → String.leb b c = true → String.leb a c = true.
Proof.
  unfold String.leb. intros Hab Hbc.
  pose proof (String_compare_trans_le a b c) as H.
  destruct (String.compare a b), (String.compare b c), (String.compare a c);
    try done; exfalso; by apply H.
Qed.

(** ** Sorted concatenations *)

Lemma elem_of_concat {A} (x : A) (ls : list (list A)) :
  x ∈ concat ls ↔ ∃ l, x ∈ l ∧ l ∈ ls.
Proof.
  rewrite list_elem_of_In, in_concat. split.
  - intros (l & Hl & Hx). exists l. by rewrite !list_elem_of_In.
  - intros (l & Hx & Hl). exists l. by rewrite <- !list_elem_of_In.
Qed.

Lemma same_key_sorted {A K} (R : relation K) (key : A → K) (k : K) (l : list A) :
  R k k → Forall (fun a => key a = k) l →
  StronglySorted (fun a b => R (key a) (key b)) l.
Proof.
  intros Hk. induction 1 as [|a l Ha Hl IH]; constructor; [done|].
  eapply Forall_impl; [exact Hl|]. intros b Hb. simpl in Hb. by rewrite Ha, Hb.
Qed.

(** Blocks whose elements carry the key of their block, in the order of
    sorted block keys. *)
Lemma concat_blocks_sorted {J A K} (R : relation K) (jkey : J → K) (key : A → K)
    (jobs : list J) (blocks : list (list A)) :
  (∀ k, R k k) →
  Forall2 (fun job rows => Forall (fun a => key a = jkey job) rows) jobs blocks →
  StronglySorted (fun a b => R (jkey a) (jkey b)) jobs →
  StronglySorted (fun a b => R (key a) (key b)) (concat blocks).
Proof.
  intros Hrefl. induction 1 as [|job rows jobs blocks Hrows Hrest IH]; intros Hs.
  - constructor.
  - apply StronglySorted_inv in Hs as [Hs Hall]. simpl.
    apply StronglySorted_app_2; [|by eapply same_key_sorted|by apply IH].
    intros a b Ha Hb. rewrite Forall_forall in Hrows. rewrite (Hrows _ Ha).
    apply elem_of_concat in Hb as (rows' & Hb & Hrows').
    apply list_elem_of_lookup in Hrows' as [i Hi].
    destruct (Forall2_lookup_r _ _ _ _ _ Hrest Hi) as (job' & Hj & Hjr).
    rewrite Forall_forall in Hjr. rewrite (Hjr _ Hb).
    rewrite Forall_forall in Hall. apply Hall. by eapply list_elem_of_lookup_2.
Qed.

Lemma list_bind_concat {A B} (f : A → list B) (l : list A) :
  l ≫= f = concat (f <$> l).
Proof. induction l as [|x l IH]; csimpl; [done|]. by rewrite IH. Qed.

(** ** The flattener: what holds of every record *)

Lemma normalize_not_sentinel val : ¬ is_sentinel (normalize val).
Proof.
  destruct val as [| |q| | | |]; try (simpl; tauto).
  unfold normalize.
  destruct (existsb (Qeq_bool q) sentinels) eqn:E; [simpl; tauto|].
  intros H. apply Exists_exists in H as (s & Hs & Hq).
  assert (existsb (Qeq_bool q) sentinels = true); [|congruence].
  apply existsb_exists. exists s. split; [by apply list_elem_of_In | by apply Qeq_bool_iff].
Qed.

Lemma flatten_group_columns entry gs vals :
  flatten_group entry gs = Ok vals →
  vals.*1 = (fun sub => gs.1 +:+ "_" +:+ sub) <$> gs.2
  ∧ Forall (fun kv => ¬ is_sentinel kv.2) vals.
Proof.
  unfold flatten_group.
  destruct (py_get entry gs.1 (PDict [])) as [g|e]; simpl; [|done].
  intros H. apply mapM_result_Forall2 in H.
  induction H as [|sub kv subs vals Hkv _ IH]; [done|].
  destruct (py_get (py_or g (PDict [])) sub PNone) as [val|e]; simpl in Hkv; [|done].
  injection Hkv as <-. destruct IH as [IH1 IH2]. split.
  - csimpl. by rewrite IH1.
  - constructor; [apply normalize_not_sentinel | done].
Qed.

Lemma flatten_entry_columns sid entry r :
  flatten_entry sid entry = Ok r →
  rec_StationID r = sid
  ∧ dict_keys (rec_values r) = feature_cols
  ∧ Forall (fun kv => ¬ is_sentinel kv.2) (rec_values r).
Proof.
  unfold flatten_entry. intros H.
  apply bind_Ok_inv in H as (dt & _ & H).
  apply bind_Ok_inv in H as (vals & Hv & H).
  injection H as <-. split; [done|]. cbn [rec_values]. unfold dict_keys.
  apply mapM_result_Forall2 in Hv. unfold feature_cols.
  induction Hv as [|gs v gss vals Hg _ IH]; [done|].
  apply flatten_group_columns in Hg as [Hg1 Hg2]. destruct IH as [IH1 IH2].
  csimpl. rewrite fmap_app, Hg1, IH1. split; [done|].
  by apply Forall_app.
Qed.

Lemma flatten_item_records sid item rs :
  flatten_item sid item = Ok rs →
  Forall (fun r => rec_StationID r = sid ∧ record_clean r) rs.
Proof.
  unfold flatten_item. intros H.
  apply bind_Ok_inv in H as (d & _ & H).
  apply bind_Ok_inv in H as (dts & _ & H).
  apply bind_Ok_inv in H as (entries & _ & H).
  apply mapM_result_Forall2 in H.
  induction H as [|entry r entries rs Hr _ IH]; constructor; [|done].
  by apply flatten_entry_columns in Hr.
Qed.

Lemma flatten_file_records sid content rs :
  flatten_file sid content = Ok rs →
  Forall (fun r => rec_StationID r = sid ∧ record_clean r) rs.
Proof.
  destruct content as [data|]; [|done]. unfold flatten_file. intros H.
  apply bind_Ok_inv in H as (items & _ & H).
  apply bind_Ok_inv in H as (rows & Hrows & H).
  injection H as <-. apply Forall_concat.
  apply mapM_result_Forall2 in Hrows.
  induction Hrows as [|item r items rows Hr _ IH]; constructor; [|done].
  by apply flatten_item_records in Hr.
Qed.

(** The table is the concatenation of what the opened files contribute. *)
Lemma for_each_flatten_step jobs acc records :
  for_each jobs flatten_step acc = Ok records →
  ∃ blocks,
    Forall2 (fun job rows => flatten_file job.1.1 job.2 = Ok rows) jobs blocks
    ∧ records = acc ++ concat blocks.
Proof.
  revert acc. induction jobs as [|job jobs IH]; intros acc H.
  - injection H as <-. exists []. split; [constructor | by rewrite app_nil_r].
  - rewrite for_each_cons in H. apply bind_Ok_inv in H as (acc' & Hstep & H).
    unfold flatten_step in Hstep. apply bind_Ok_inv in Hstep as (rows & Hrows & Hstep).
    injection Hstep as <-.
    destruct (IH _ H) as (blocks & Hb & ->).
    exists (rows :: blocks). split; [by constructor|].
    simpl. by rewrite app_assoc.
Qed.

Lemma elem_of_json_files valid his_root sid fname content :
  (sid, fname, content) ∈ json_files valid his_root →
  sid ∈ valid ∧ is_Some (dict_get his_root sid) ∧ endswith fname ".json" = true.
Proof.
  unfold json_files. rewrite list_elem_of_bind. intros (s & Hin & Hs).
  rewrite sort_by_Permutation in Hs. apply elem_of_elements in Hs.
  destruct (dict_get his_root s) as [dir|] eqn:Hdir; [|by apply elem_of_nil in Hin].
  apply list_elem_of_fmap in Hin as (f & Heq & Hf). injection Heq as -> -> ->.
  apply list_elem_of_filter in Hf as [Hf _]. by rewrite Hdir.
Qed.

Lemma json_files_sorted valid his_root :
  StronglySorted (fun a b => String.leb a.1.1 b.1.1 = true) (json_files valid his_root).
Proof.
  unfold json_files.
  pose proof (sort_by_sorted String.leb id String.leb_total String_leb_trans
                (elements valid)) as Hs.
  induction Hs as [|s l Hl IH Hall]; [constructor|].
  csimpl. apply StronglySorted_app_2; [| |done].
  - intros a b Ha Hb.
    assert (a.1.1 = s) as ->.
    { destruct (dict_get his_root s); [|by apply elem_of_nil in Ha].
      by apply list_elem_of_fmap in Ha as (f & -> & _). }
    apply list_elem_of_bind in Hb as (s' & Hb & Hs').
    assert (b.1.1 = s') as ->.
    { destruct (dict_get his_root s'); [|by apply elem_of_nil in Hb].
      by apply list_elem_of_fmap in Hb as (f & -> & _). }
    rewrite Forall_forall in Hall. by apply Hall.
  - apply (same_key_sorted (fun a b => String.leb a b = true)
             (fun j : string * string * option pyval => j.1.1) s);
      [apply String_leb_refl|].
    destruct (dict_get his_root s); [|constructor].
    apply Forall_fmap, Forall_forall. done.
Qed.

Lemma flatten_and_clean_records valid his_root records :
  flatten_and_clean valid his_root = Ok records →
  Forall (fun r => rec_StationID r ∈ valid
                   ∧ is_Some (dict_get his_root (rec_StationID r))
                   ∧ record_clean r) records
  ∧ StronglySorted (fun a b => String.leb (rec_StationID a) (rec_StationID b) = true)
      records.
Proof.
  unfold flatten_and_clean. intros H.
  apply for_each_flatten_step in H as (blocks & Hb & ->). simpl.
  assert (Forall2 (fun job rows =>
            Forall (fun r => rec_StationID r = job.1.1 ∧ record_clean r) rows)
            (json_files valid his_root) blocks) as Hrec.
  { eapply Forall2_impl; [exact Hb|]. intros job rows. apply flatten_file_records. }
  split.
  - apply Forall_concat, Forall_forall. intros rows Hrows.
    apply list_elem_of_lookup in Hrows as [i Hi].
    destruct (Forall2_lookup_r _ _ _ _ _ Hrec Hi) as ([[sid fname] content] & Hj & Hjr).
    apply list_elem_of_lookup_2, elem_of_json_files in Hj as (Hv & Hd & _).
    eapply Forall_impl; [exact Hjr|]. simpl. intros r [-> Hc]. done.
  - apply (concat_blocks_sorted (fun a b => String.leb a b = true)
             (fun j : string * string * option pyval => j.1.1) rec_StationID
             (json_files valid his_root));
      [apply String_leb_refl | | apply json_files_sorted].
    eapply Forall2_impl; [exact Hrec|]. intros job rows Hrows.
    eapply Forall_impl; [exact Hrows|]. by intros r [? _].
Qed.

(** ** The catalog step on any document: the entries it keeps *)

Lemma load_station_info_items valid meta st :
  load_station_info valid meta = Ok st →
  ∃ items, catalog_items meta = Ok items
           ∧ for_each items (load_item valid) ([], []) = Ok st.
Proof.
  unfold load_station_info, catalog_items. intros H.
  apply bind_Ok_inv in H as (grps & Hg & H). rewrite Hg. simpl.
  apply (for_each_nested group_items (load_item valid)) in H as (yss & Hy & H).
  exists (concat yss). by rewrite Hy.
Qed.

Lemma load_item_entry valid item st st' :
  load_item valid item st = Ok st' →
  st' = match item_entry valid item with
        | Some e => (dict_set st.1 e.1 e.2, st.2 ++ [meta_row e])
        | None => st
        end.
Proof.
  unfold load_item, item_entry. destruct item as [| | | | | |kv]; try done.
  simpl. destruct (dict_get kv "stationID") as [[| | | |s| |]|]; simpl;
    try (by intros [= <-]).
  destruct (decide (s ∈ valid)); simpl; by intros [= <-].
Qed.

Lemma for_each_load_item valid items st st' :
  for_each items (load_item valid) st = Ok st' →
  st' = foldl (fun st e => (dict_set st.1 e.1 e.2, st.2 ++ [meta_row e])) st
          (omap (item_entry valid) items).
Proof.
  revert st. induction items as [|item items IH]; intros st H.
  - by injection H as <-.
  - rewrite for_each_cons in H. apply bind_Ok_inv in H as (st1 & H1 & H).
    apply load_item_entry in H1. apply IH in H. subst st1. simpl.
    by destruct (item_entry valid item).
Qed.

(** A dict filled by assignments in list order: the station map. *)
Lemma foldl_entries_meta (es : list (string * StationInfo)) st :
  (foldl (fun st e => (dict_set st.1 e.1 e.2, st.2 ++ [meta_row e])) st es).2
  = st.2 ++ (meta_row <$> es).
Proof.
  revert st. induction es as [|e es IH]; intros st; simpl.
  - by rewrite app_nil_r.
  - rewrite IH. simpl. by rewrite <- app_assoc.
Qed.

Lemma dict_get_set {V} (d : list (string * V)) k v k' :
  dict_get (dict_set d k v) k' = if decide (k' = k) then Some v else dict_get d k'.
Proof.
  induction d as [|[k0 v0] d IH]; simpl.
  - repeat case_decide; congruence.
  - destruct (decide (k0 = k)) as [->|Hne]; simpl.
    + repeat case_decide; congruence.
    + rewrite IH. repeat case_decide; congruence.
Qed.

Lemma foldl_entries_get (es : list (string * StationInfo)) st s :
  dict_get (foldl (fun st e => (dict_set st.1 e.1 e.2, st.2 ++ [meta_row e])) st es).1 s
  = match last (filter (fun e => e.1 = s) es) with
    | Some e => Some e.2
    | None => dict_get st.1 s
    end.
Proof.
  revert st. induction es as [|e es IH]; intros st; simpl; [done|].
  rewrite IH. simpl. rewrite filter_cons.
  destruct (decide (e.1 = s)) as [<-|Hne].
  - destruct (filter (fun e0 => e0.1 = e.1) es) as [|e1 l] eqn:Hf; simpl.
    + by rewrite dict_get_set, decide_True.
    + destruct (last (e1 :: l)) eqn:E; [done|]. by apply last_None in E.
  - destruct (last _); [done|]. by rewrite dict_get_set, decide_False.
Qed.

Lemma foldl_entries_keys (es : list (string * StationInfo)) st s :
  s ∈ dict_keys (foldl (fun st e => (dict_set st.1 e.1 e.2, st.2 ++ [meta_row e])) st es).1
  ↔ s ∈ dict_keys st.1 ∨ s ∈ es.*1.
Proof.
  revert st. induction es as [|e es IH]; intros st; simpl.
  - rewrite elem_of_nil. tauto.
  - rewrite IH. simpl. rewrite elem_of_dict_keys_set, elem_of_cons. tauto.
Qed.

Lemma load_station_info_entries valid meta info station_meta :
  load_station_info valid meta = Ok (info, station_meta) →
  ∃ items,
    catalog_items meta = Ok items
    ∧ station_meta = meta_row <$> omap (item_entry valid) items
    ∧ (∀ s, s ∈ dict_keys info ↔ s ∈ (omap (item_entry valid) items).*1)
    ∧ ∀ s, dict_get info s
           = snd <$> last (filter (fun e => e.1 = s) (omap (item_entry valid) items)).
Proof.
  intros H. apply load_station_info_items in H as (items & Hitems & H).
  apply for_each_load_item in H. exists items. split; [done|].
  split; [|split].
  - apply (f_equal snd) in H. simpl in H. by rewrite foldl_entries_meta in H.
  - intros s. apply (f_equal fst) in H. simpl in H. rewrite H, foldl_entries_keys.
    simpl. rewrite elem_of_nil. tauto.
  - intros s. apply (f_equal fst) in H. simpl in H. rewrite H, foldl_entries_get.
    simpl. by destruct (last _).
Qed.

(** ** The cleaner *)

Lemma extract_item_active item ids ids' :
  extract_item item ids = Ok ids' →
  ids' = ids ++ option_list (active_id item).
Proof.
  unfold extract_item, active_id. destruct item as [| | | | | |kv]; try done. simpl.
  destruct (py_truthy (default PNone (dict_get kv "stationEndDate"))).
  - intros [= <-]. by rewrite app_nil_r.
  - simpl. destruct (py_truthy (default PNone (dict_get kv "stationID")));
      intros [= <-]; [done | by rewrite app_nil_r].
Qed.

Lemma for_each_extract_item items ids ids' :
  for_each items extract_item ids = Ok ids' →
  ids' = ids ++ omap active_id items.
Proof.
  revert ids. induction items as [|item items IH]; intros ids H.
  - injection H as <-. by rewrite app_nil_r.
  - rewrite for_each_cons in H. apply bind_Ok_inv in H as (ids1 & H1 & H).
    apply extract_item_active in H1. apply IH in H. subst. simpl.
    destruct (active_id item); simpl; by rewrite <- app_assoc.
Qed.

Lemma extract_item_dict item ids :
  is_dict item = true →
  extract_item item ids = Ok (ids ++ option_list (active_id item)).
Proof.
  destruct item as [| | | | | |kv]; try done. intros _.
  unfold extract_item, active_id. simpl.
  destruct (py_truthy (default PNone (dict_get kv "stationEndDate"))).
  - by rewrite app_nil_r.
  - simpl. destruct (py_truthy (default PNone (dict_get kv "stationID")));
      [done | by rewrite app_nil_r].
Qed.

Lemma for_each_extract_dicts items ids :
  Forall (fun item => is_dict item = true) items →
  for_each items extract_item ids = Ok (ids ++ omap active_id items).
Proof.
  intros H. revert ids. induction H as [|item items Hd _ IH]; intros ids.
  - simpl. by rewrite app_nil_r.
  - rewrite for_each_cons, extract_item_dict by done. simpl. rewrite IH.
    destruct (active_id item); simpl; by rewrite <- app_assoc.
Qed.

Lemma mapM_str_of vs ids :
  mapM str_of vs = Ok ids → vs = PStr <$> ids.
Proof.
  intros H. apply mapM_result_Forall2 in H.
  induction H as [|v s vs ids Hv _ IH]; [done|].
  destruct v; try done. injection Hv as ->. by rewrite IH.
Qed.

Lemma extract_valid_station_ids_collected data ids :
  extract_valid_station_ids data = Ok ids →
  ∃ items collected,
    catalog_items data = Ok items
    ∧ omap active_id items = PStr <$> collected
    ∧ ids = sort_by String.leb id (remove_dups collected).
Proof.
  unfold extract_valid_station_ids, catalog_items. intros H.
  apply bind_Ok_inv in H as (grps & Hg & H). rewrite Hg. simpl.
  apply bind_Ok_inv in H as (vs & Hvs & H).
  apply bind_Ok_inv in H as (collected & Hc & H). injection H as <-.
  apply (for_each_nested group_items extract_item) in Hvs as (yss & Hy & Hvs).
  apply for_each_extract_item in Hvs. simpl in Hvs. apply mapM_str_of in Hc.
  exists (concat yss), collected. rewrite Hy. by rewrite <- Hvs, Hc.
Qed.

Lemma elem_of_extracted data ids :
  extract_valid_station_ids data = Ok ids →
  ∃ items,
    catalog_items data = Ok items
    ∧ ∀ s, s ∈ ids ↔ ∃ item, item ∈ items ∧ active_id item = Some (PStr s).
Proof.
  intros H. apply extract_valid_station_ids_collected in H
    as (items & collected & Hitems & Hc & ->).
  exists items. split; [done|]. intros s.
  rewrite sort_by_Permutation, elem_of_remove_dups.
  assert (s ∈ collected ↔ PStr s ∈ PStr <$> collected) as ->.
  { rewrite list_elem_of_fmap. split; [by exists s|]. by intros (s' & [= ->] & ?). }
  rewrite <- Hc, list_elem_of_omap. split; intros (item & ? & ?); by exists item.
Qed.

Lemma active_id_truthy item v : active_id item = Some v → py_truthy v = true.
Proof.
  unfold active_id. destruct item as [| | | | | |kv]; try done.
  destruct (py_truthy (default PNone (dict_get kv "stationEndDate"))); [done|].
  simpl. destruct (py_truthy (default PNone (dict_get kv "stationID"))) eqn:E; [|done].
  by intros [= <-].
Qed.

Lemma active_id_entry valid item s :
  active_id item = Some (PStr s) → s ∈ valid →
  ∃ i, item_entry valid item = Some (s, i).
Proof.
  unfold active_id, item_entry. destruct item as [| | | | | |kv]; try done.
  destruct (py_truthy (default PNone (dict_get kv "stationEndDate"))); [done|].
  simpl. destruct (dict_get kv "stationID") as [v|]; simpl; [|done].
  destruct (py_truthy v); [|done]. intros [= ->] Hs.
  rewrite decide_True by done. eauto.
Qed.

Lemma mapM_raises_only {A B} (f : A → result B) (e : exn) (xs : list A) (x : A) :
  (∀ y e', f y = Raise e' → e' = e) →
  x ∈ xs → is_ok (f x) = false → mapM f xs = Raise e.
Proof.
  intros Honly Hx Hf. induction xs as [|y xs IH]; [by apply elem_of_nil in Hx|].
  simpl. destruct (f y) as [v|e'] eqn:Hy; simpl.
  - apply elem_of_cons in Hx as [->|Hx]; [by rewrite Hy in Hf|].
    by rewrite (IH Hx).
  - by rewrite (Honly _ _ Hy).
Qed.

(** ** Rounding: the error of [round(d, 4)] *)

Lemma round_half_even_error (x : Q) :
  (Qabs (inject_Z (round_half_even x) - x) <= 1 # 2)%Q.
Proof.
  pose proof (Qfloor_le x) as Hlo. pose proof (Qlt_floor x) as Hhi.
  rewrite inject_Z_plus in Hhi. change (inject_Z 1) with 1%Q in Hhi.
  unfold round_half_even.
  destruct (x - inject_Z (Qfloor x) ?= 1 # 2)%Q eqn:Hc;
    [apply Qeq_alt in Hc | apply Qlt_alt in Hc | apply Qgt_alt in Hc];
    try destruct (Z.even (Qfloor x));
    rewrite ?inject_Z_plus; change (inject_Z 1) with 1%Q;
    revert Hlo Hhi Hc; generalize (inject_Z (Qfloor x)); intros z Hlo Hhi Hc;
    apply Qabs_case; intros; lra.
Qed.

Lemma py_round4_error (d : Q) : (Qabs (py_round4 d - d) <= 1 # 20000)%Q.
Proof.
  unfold py_round4. pose proof (round_half_even_error (d * 10000)) as H.
  revert H. generalize (inject_Z (round_half_even (d * 10000))). intros z.
  rewrite !Qabs_Qle_condition. unfold Qdiv.
  change (/ 10000)%Q with (1 # 10000)%Q. intros [H1 H2]. split; lra.
Qed.

Lemma py_round4_zero : (py_round4 0 == 0)%Q.
Proof. by vm_compute. Qed.

Lemma py_round4_nonneg (d : Q) : (0 <= d)%Q → (0 <= py_round4 d)%Q.
Proof. intros H. rewrite <- py_round4_zero. by apply py_round4_mono. Qed.

Lemma py_round4_small (d : Q) : (0 <= d)%Q → (d < 1 # 20000)%Q → (py_round4 d == 0)%Q.
Proof.
  intros Hlo Hhi. unfold py_round4.
  assert (Qfloor (d * 10000) = 0%Z) as Hf.
  { pose proof (Qfloor_le (d * 10000)). pose proof (Qlt_floor (d * 10000)).
    assert (-1 < Qfloor (d * 10000) < 1)%Z; [|lia].
    rewrite inject_Z_plus in H0. change (inject_Z 1) with 1%Q in H0.
    rewrite !Zlt_Qlt. change (inject_Z (-1)) with (-1)%Q.
    change (inject_Z 1) with 1%Q. split; lra. }
  unfold round_half_even. rewrite Hf.
  assert ((d * 10000 - inject_Z 0 ?= 1 # 2)%Q = Lt) as ->.
  { apply (proj1 (Qlt_alt _ _)). change (inject_Z 0) with 0%Q. lra. }
  by vm_compute.
Qed.

(** ** Candidates at distance zero *)

Lemma idw_weight_le_zero (d : Q) : Qle_bool d 0 = true → idw_weight d = 0%Q.
Proof. intros H. apply idw_weight_zero. by apply Qle_bool_iff. Qed.

Lemma idw_weight_far (d : Q) : Qle_bool d 0 = false → (0 < idw_weight d)%Q.
Proof.
  intros H. apply idw_weight_pos.
  destruct (Qlt_le_dec 0 d) as [Hd|Hd]; [done|].
  apply Qle_bool_iff in Hd. congruence.
Qed.

Lemma weighted_sums (vds : list (Q * Q)) :
  (Qsum (idw_weight <$> (weighted vds).*2) == Qsum (idw_weight <$> vds.*2))%Q
  ∧ (Qsum (zip_with Qmult (weighted vds).*1 (idw_weight <$> (weighted vds).*2))
     == Qsum (zip_with Qmult vds.*1 (idw_weight <$> vds.*2)))%Q.
Proof.
  induction vds as [|[v d] vds [IH1 IH2]]; [done|].
  unfold weighted in *. rewrite filter_cons. simpl.
  destruct (Qle_bool d 0) eqn:Hd.
  - rewrite decide_False by done. csimpl. rewrite !Qsum_cons, IH1, IH2.
    rewrite (idw_weight_le_zero d Hd).
    split; [rewrite Qplus_0_l | rewrite Qmult_0_r, Qplus_0_l]; reflexivity.
  - rewrite decide_True by done. csimpl. rewrite !Qsum_cons, IH1, IH2. done.
Qed.

Lemma weighted_sum_pos (vds : list (Q * Q)) :
  weighted vds ≠ [] → (0 < Qsum (idw_weight <$> (weighted vds).*2))%Q.
Proof.
  unfold weighted.
  assert (Forall (fun vd : Q * Q => Qle_bool vd.2 0 = false)
            (filter (fun vd : Q * Q => Qle_bool vd.2 0 = false) vds)) as H.
  { apply Forall_forall. intros vd Hvd. by apply list_elem_of_filter in Hvd as [? _]. }
  revert H. generalize (filter (fun vd : Q * Q => Qle_bool vd.2 0 = false) vds).
  intros l Hl Hne. destruct Hl as [|vd l Hvd Hl]; [done|].
  csimpl. rewrite Qsum_cons.
  pose proof (idw_weight_far _ Hvd).
  assert (0 <= Qsum (idw_weight <$> l.*2))%Q; [|lra].
  apply Qsum_nonneg, Forall_fmap, Forall_fmap, Forall_forall.
  intros x _. apply idw_weight_nonneg.
Qed.

(** ** The entries of a neighbour list *)

Lemma elem_of_neighbor_list metric station_info sid n :
  n ∈ neighbor_list metric station_info sid
  ↔ station n ∈ dict_keys station_info ∧ station n ≠ sid
    ∧ distance_km n = py_round4 (distance_3d metric station_info sid (station n)).
Proof.
  unfold neighbor_list. rewrite list_elem_of_fmap. split.
  - intros (od & -> & Hod). rewrite sorted_dists_Permutation in Hod.
    apply list_elem_of_fmap in Hod as (o & -> & Ho).
    apply list_elem_of_filter in Ho as [Hne Ho]. done.
  - intros (Hk & Hne & Hd).
    exists (station n, distance_3d metric station_info sid (station n)). split.
    + destruct n as [o d]. simpl in *. by rewrite Hd.
    + rewrite sorted_dists_Permutation. apply list_elem_of_fmap.
      exists (station n). split; [done|]. by apply list_elem_of_filter.
Qed.

Lemma py_round4_proper (x y : Q) : (x == y)%Q → (py_round4 x == py_round4 y)%Q.
Proof.
  intros H. apply Qle_antisym; apply py_round4_mono; rewrite H; apply Qle_refl.
Qed.

Lemma neighbors_lookup_Some metric station_info sid l :
  NoDup (dict_keys station_info) →
  dict_get (compute_and_cache_neighbors metric station_info) sid = Some l →
  sid ∈ dict_keys station_info ∧ l = neighbor_list metric station_info sid.
Proof.
  intros Hnd. rewrite neighbors_lookup by done.
  destruct (decide _); [|done]. by intros [= <-].
Qed.

(** ** The worker: what a run of cells keeps *)

Section WorkerInvariants.
Variables (t proc : string) (neighbors : list (string * list Neighbor)).

Lemma cell_step_observed cell st s col q :
  frame_get st.1 s col = Some (Some q) →
  frame_get (cell_step t proc neighbors cell st).1 s col = Some (Some q).
Proof.
  intros Hq. destruct (decide ((s, col) = cell)) as [<-|Hne].
  - unfold cell_step. simpl. by rewrite Hq.
  - by rewrite cell_step_other.
Qed.

Lemma run_cells_observed cs st s col q :
  frame_get st.1 s col = Some (Some q) →
  frame_get (run_cells t proc neighbors cs st).1 s col = Some (Some q).
Proof.
  revert st. induction cs as [|c cs IH]; intros st Hq; simpl; [done|].
  by apply IH, cell_step_observed.
Qed.

(** A step whose cell holds a number, or is no cell of the frame, does nothing. *)
Lemma cell_step_not_missing cell st :
  frame_get st.1 cell.1 cell.2 ≠ Some None →
  cell_step t proc neighbors cell st = st.
Proof.
  unfold cell_step. by destruct (frame_get st.1 cell.1 cell.2) as [[q|]|].
Qed.

Lemma run_cells_not_missing cs st :
  Forall (fun c => frame_get st.1 c.1 c.2 ≠ Some None) cs →
  run_cells t proc neighbors cs st = st.
Proof.
  induction 1 as [|c cs Hc _ IH]; simpl; [done|].
  by rewrite cell_step_not_missing.
Qed.

(** The log lines that a run of cells adds. *)
Lemma cell_step_log cell st e :
  e ∈ (cell_step t proc neighbors cell st).2 →
  e ∈ st.2
  ∨ (e = mkLog t proc cell.1 cell.2
     ∧ frame_get st.1 cell.1 cell.2 = Some None
     ∧ (cell_step t proc neighbors cell st).1 = st.1).
Proof.
  unfold cell_step.
  destruct (frame_get st.1 cell.1 cell.2) as [[q|]|]; [by left| |by left].
  destruct (decide _); simpl; [by left|].
  rewrite elem_of_app, list_elem_of_singleton. intros [H| ->]; [by left | by right].
Qed.

Lemma run_cells_log cs st e :
  NoDup cs →
  e ∈ (run_cells t proc neighbors cs st).2 →
  e ∈ st.2
  ∨ (log_time e = t ∧ log_proc e = proc
     ∧ (log_station e, log_col e) ∈ cs
     ∧ frame_get st.1 (log_station e) (log_col e) = Some None
     ∧ frame_get (run_cells t proc neighbors cs st).1 (log_station e) (log_col e)
       = Some None).
Proof.
  revert st. induction cs as [|c cs IH]; intros st Hnd He; simpl in *; [by left|].
  apply NoDup_cons in Hnd as [Hc Hnd].
  destruct (IH _ Hnd He) as [H|(Ht & Hp & Hin & Hget & Hout)].
  - apply cell_step_log in H as [H|(-> & Hget & Hsame)]; [by left|].
    right. simpl. split; [done|]. split; [done|].
    split; [destruct c; left|]. split; [done|].
    destruct (run_cells_other t proc neighbors cs
                (cell_step t proc neighbors c st) c.1 c.2) as [-> _].
    { by destruct c. }
    by rewrite Hsame.
  - right. split; [done|]. split; [done|]. split; [by right|]. split; [|done].
    rewrite cell_step_other in Hget; [done|]. intros <-. done.
Qed.

End WorkerInvariants.

Lemma candidates_length grp col ns : length (candidates grp col ns) ≤ length ns.
Proof. unfold candidates. rewrite length_fmap. apply length_filter. Qed.

Lemma frame_get_complete grp s col v :
  complete grp → frame_get grp s col = Some v → is_Some v.
Proof.
  unfold complete, frame_get. intros Hc H.
  destruct (dict_get (rows grp) s) as [r|] eqn:Hr; [|done]. simpl in H.
  apply dict_get_Some_elem in Hr. rewrite Forall_forall in Hc.
  specialize (Hc _ Hr). simpl in Hc. rewrite Forall_forall in Hc.
  apply Hc. by eapply list_elem_of_lookup_2.
Qed.

(** A label that the index repeats. *)
Lemma repeated_label (l : list string) :
  ¬ NoDup l → ∃ s, 2 ≤ length (filter (fun k => k = s) l).
Proof.
  induction l as [|x l IH]; intros Hnd.
  - destruct Hnd. constructor.
  - destruct (decide (x ∈ l)) as [Hin|Hin].
    + exists x. rewrite filter_cons, decide_True by done. simpl.
      apply list_elem_of_split in Hin as (l1 & l2 & ->).
      rewrite filter_app, filter_cons, decide_True by done.
      rewrite length_app. simpl. lia.
    + destruct IH as [s Hs].
      * intros H. apply Hnd. by constructor.
      * exists s. rewrite filter_cons. destruct (decide (x = s)); simpl; lia.
Qed.

Lemma frame_get_observed grp s col q :
  frame_get grp s col = Some (Some q) → s ∈ observed grp col.
Proof.
  unfold frame_get, observed. intros H.
  destruct (dict_get (rows grp) s) as [r|] eqn:Hr; [|done]. simpl in H.
  apply dict_get_Some_elem in Hr. apply list_elem_of_fmap. exists (s, r).
  split; [done|]. apply list_elem_of_filter. split; [|done].
  unfold has_value. simpl. by rewrite H.
Qed.

Lemma candidates_bound grp col ns (obs : list string) :
  NoDup (station <$> ns) →
  (∀ s q, frame_get grp s col = Some (Some q) → s ∈ obs) →
  length (candidates grp col ns) ≤ length obs.
Proof.
  intros Hnd Hobs. rewrite <- (length_fmap fst).
  apply submseteq_length, NoDup_submseteq.
  - assert ((candidates grp col ns).*1 `sublist_of` station <$> ns) as Hsub.
    { unfold candidates. rewrite <- list_fmap_compose.
      apply (fmap_sublist station), sublist_filter. }
    by eapply sublist_NoDup.
  - intros s Hs. apply list_elem_of_fmap in Hs as (a & -> & Ha).
    apply candidates_have_value in Ha as [q Hq]. by eapply Hobs.
Qed.

Section ColumnFrozen.
Variables (t proc : string) (neighbors : list (string * list Neighbor)).
Variables (grp0 : DataFrame) (col : nat).
Hypothesis lists_NoDup : ∀ s, NoDup (station <$> neighbors_of neighbors s).
Hypothesis few_observed : length (observed grp0 col) < MIN_NEIGHBORS.

Lemma no_quorum_in_column grp s :
  (∀ s', frame_get grp s' col = frame_get grp0 s' col) →
  ¬ quorum_found grp col (neighbors_of neighbors s).
Proof using lists_NoDup few_observed.
  intros Hsame. unfold quorum_found.
  pose proof (candidates_bound grp col (neighbors_of neighbors s)
                (observed grp0 col) (lists_NoDup s)) as Hb.
  enough (length (candidates grp col (neighbors_of neighbors s))
          ≤ length (observed grp0 col)) by lia.
  apply Hb. intros s' q Hq. rewrite Hsame in Hq. by eapply frame_get_observed.
Qed.

Lemma cell_step_column_frozen cell st :
  (∀ s, frame_get st.1 s col = frame_get grp0 s col) →
  ∀ s, frame_get (cell_step t proc neighbors cell st).1 s col = frame_get grp0 s col.
Proof using lists_NoDup few_observed.
  intros Hsame s. rewrite <- Hsame.
  destruct (decide (cell.2 = col)) as [Hc|Hc].
  - unfold cell_step. destruct (frame_get st.1 cell.1 cell.2) as [[q|]|]; [done| |done].
    destruct (decide _) as [Hq|Hq]; [|done].
    exfalso. rewrite Hc in Hq. by eapply no_quorum_in_column.
  - apply cell_step_other. intros <-. done.
Qed.

Lemma run_cells_column_frozen cs st :
  (∀ s, frame_get st.1 s col = frame_get grp0 s col) →
  ∀ s, frame_get (run_cells t proc neighbors cs st).1 s col = frame_get grp0 s col.
Proof using lists_NoDup few_observed.
  revert st. induction cs as [|c cs IH]; intros st Hsame; simpl; [done|].
  by apply IH, cell_step_column_frozen.
Qed.

End ColumnFrozen.

Lemma frame_get_cell grp s col v :
  wf_frame grp → frame_get grp s col = Some v → (s, col) ∈ cells grp.
Proof.
  intros [_ Hlen] H. apply elem_of_cells. split; [by eapply frame_get_index|].
  unfold frame_get in H. destruct (dict_get (rows grp) s) as [r|] eqn:Hr; [|done].
  simpl in H. apply dict_get_Some_elem in Hr.
  rewrite Forall_forall in Hlen. specialize (Hlen _ Hr). simpl in Hlen.
  apply lookup_lt_Some in H. lia.
Qed.

Lemma cell_step_log_NoDup t proc neighbors cell st :
  NoDup st.2 →
  (∀ e, e ∈ st.2 → (log_station e, log_col e) ≠ cell) →
  NoDup (cell_step t proc neighbors cell st).2.
Proof.
  intros Hnd Hnot. unfold cell_step.
  destruct (frame_get st.1 cell.1 cell.2) as [[q|]|]; [done| |done].
  destruct (decide _); simpl; [done|].
  apply NoDup_app. split; [done|]. split; [|apply NoDup_singleton].
  intros e He Hin. apply list_elem_of_singleton in Hin as ->.
  apply (Hnot _ He). by destruct cell.
Qed.

Lemma run_cells_log_NoDup t proc neighbors cs st :
  NoDup cs → NoDup st.2 →
  (∀ e, e ∈ st.2 → (log_station e, log_col e) ∉ cs) →
  NoDup (run_cells t proc neighbors cs st).2.
Proof.
  revert st. induction cs as [|c cs IH]; intros st Hcs Hnd Hnot; simpl; [done|].
  apply NoDup_cons in Hcs as [Hc Hcs]. apply IH; [done| |].
  - apply cell_step_log_NoDup; [done|]. intros e He Heq.
    apply (Hnot _ He). rewrite Heq. left.
  - intros e He. apply cell_step_log in He as [He|(-> & _ & _)].
    + intros Hin. apply (Hnot _ He). by right.
    + simpl. by destruct c.
Qed.

Lemma neighbors_of_NoDup (neighbors : list (string * list Neighbor)) s :
  Forall (fun kl => NoDup (station <$> kl.2)) neighbors →
  NoDup (station <$> neighbors_of neighbors s).
Proof.
  intros H. unfold neighbors_of.
  destruct (dict_get neighbors s) as [l|] eqn:Hl; simpl; [|constructor].
  apply dict_get_Some_elem in Hl. rewrite Forall_forall in H. by apply (H _ Hl).
Qed.

Lemma Qeq_bool_pos (x : Q) : (0 < x)%Q → Qeq_bool x 0 = false.
Proof.
  intros H. destruct (Qeq_bool x 0) eqn:E; [|done].
  apply Qeq_bool_iff in E. lra.
Qed.

Lemma run_cells_short_lists t proc neighbors cs st :
  (∀ s, length (neighbors_of neighbors s) < MIN_NEIGHBORS) →
  (run_cells t proc neighbors cs st).1 = st.1.
Proof.
  intros Hshort. revert st. induction cs as [|c cs IH]; intros st; simpl; [done|].
  rewrite IH. unfold cell_step.
  destruct (frame_get st.1 c.1 c.2) as [[q|]|]; [done| |done].
  destruct (decide _) as [Hq|Hq]; [|done].
  exfalso. unfold quorum_found in Hq.
  pose proof (candidates_length st.1 c.2 (neighbors_of neighbors c.1)).
  specialize (Hshort c.1). lia.
Qed.

Lemma built_lists_short metric station_info s :
  NoDup (dict_keys station_info) →
  length (dict_keys station_info) ≤ MIN_NEIGHBORS →
  length (neighbors_of (compute_and_cache_neighbors metric station_info) s)
  < MIN_NEIGHBORS.
Proof.
  intros Hnd Hlen. unfold neighbors_of. rewrite neighbors_lookup by done.
  destruct (decide (s ∈ dict_keys station_info)) as [Hs|Hs]; simpl.
  - rewrite neighbor_list_length by done.
    apply list_elem_of_lookup in Hs as [i Hi]. apply lookup_lt_Some in Hi. lia.
  - unfold MIN_NEIGHBORS. lia.
Qed.

(** ** The assembly: timestamps *)

Lemma group_keys_all_null df0 :
  Forall (fun r => DataTime r = None) df0 → group_keys df0 = [].
Proof.
  intros H. unfold group_keys.
  assert (omap DataTime df0 = []) as ->; [|done].
  induction H as [|r df0 Hr _ IH]; [done|]. csimpl. by rewrite Hr.
Qed.

Lemma merge_left_times imputed station_meta out :
  merge_left imputed station_meta = Ok out →
  ∃ blocks,
    out = concat blocks
    ∧ Forall2 (fun (r : string * string * list float) rows =>
                 Forall (fun o => out_DataTime o = r.1.2) rows) imputed blocks.
Proof.
  unfold merge_left. destruct station_meta as [|m0 ms0]; [done|].
  intros [= <-]. set (meta := m0 :: ms0). clearbody meta.
  eexists. split; [apply list_bind_concat|].
  apply Forall2_fmap_r, Forall_Forall2_diag, Forall_forall. intros r _.
  simpl. destruct (filter (fun m => meta_StationID m = r.1.1) meta) as [|m ms];
    [by repeat constructor|].
  constructor; [done|]. apply Forall_fmap, Forall_forall. done.
Qed.

Lemma group_keys_sorted df0 :
  StronglySorted (fun a b => String.leb a b = true) (group_keys df0).
Proof. apply (sort_by_sorted String.leb id String.leb_total String_leb_trans). Qed.

Lemma zip_with_blocks {A B C} (R : A → B → Prop) (P : A → C → Prop)
    (f : A → B → C) (l : list A) (k : list B) :
  (∀ x y, R x y → P x (f x y)) →
  Forall2 R l k → Forall2 P l (zip_with f l k).
Proof. intros HP. induction 1; simpl; constructor; auto. Qed.

(** What [main] builds from line 168 on, stage by stage. *)
Lemma run_from_table_stages proc_of nfeat df0 station_meta neighbors out :
  run_from_table proc_of nfeat df0 station_meta neighbors = Ok out →
  ∃ results,
    Forall2 (fun t res => worker proc_of (t, slice_of nfeat df0 t, neighbors) = Ok res)
      (group_keys df0) results
    ∧ merge_left
        (concat (zip_with (fun t res => assign_time t res.1) (group_keys df0) results))
        station_meta = Ok out.
Proof.
  unfold run_from_table. intros H.
  apply bind_Ok_inv in H as (groups & Hg & H).
  apply bind_Ok_inv in H as (results & Hr & H).
  apply bind_Ok_inv in H as (imputed & Hi & H).
  unfold make_groups in Hg. destruct df0 as [|r0 df0']; [done|].
  set (df0 := r0 :: df0') in *. clearbody df0. injection Hg as <-.
  apply mapM_result_Forall2 in Hr. apply Forall2_fmap_l in Hr.
  exists results. split; [done|].
  rewrite zip_with_fmap_l in Hi. simpl in Hi.
  unfold pd_concat in Hi.
  destruct (zip_with _ _ results) as [|fr frs]; [done|]. by injection Hi as <-.
Qed.

Lemma merge_left_covers imputed station_meta out (x : string * string * list float) :
  merge_left imputed station_meta = Ok out → x ∈ imputed →
  ∃ o, o ∈ out ∧ out_StationID o = x.1.1 ∧ out_DataTime o = x.1.2
       ∧ out_features o = x.2.
Proof.
  unfold merge_left. destruct station_meta as [|m0 ms0]; [done|].
  intros [= <-] Hx. set (meta := m0 :: ms0). clearbody meta.
  destruct (filter (fun m => meta_StationID m = x.1.1) meta) as [|m ms] eqn:Hf.
  - exists (mkOut x.1.1 x.1.2 x.2 None). split; [|done].
    apply list_elem_of_bind. exists x. split; [|done]. rewrite Hf. left.
  - exists (mkOut x.1.1 x.1.2 x.2 (Some m)). split; [|done].
    apply list_elem_of_bind. exists x. split; [|done]. rewrite Hf. left.
Qed.

Lemma dict_get_NoDup_elem {V} (d : list (string * V)) k v :
  NoDup d.*1 → (k, v) ∈ d → dict_get d k = Some v.
Proof.
  intros Hnd Hin. pose proof (filter_label_NoDup d k Hnd) as Hf.
  assert ((k, v) ∈ filter (fun r : string * V => r.1 = k) d) as Hin'
    by (by apply list_elem_of_filter).
  rewrite Hf in Hin'. destruct (dict_get d k) as [v'|].
  - apply list_elem_of_singleton in Hin'. congruence.
  - by apply elem_of_nil in Hin'.
Qed.

(** ** The example data

    The neighbour maps of the examples are what the builder returns for the
    example catalogs. *)

(** Closed goals on the example data are settled by evaluation. *)
Ltac by_compute :=
  first [ vm_compute; reflexivity
        | apply (bool_decide_unpack _); vm_compute; exact I ].

Lemma site_neighbors_built :
  build_neighbors line_metric site_valid site_catalog = Ok site_neighbors.
Proof. by_compute. Qed.

Lemma tie_info_loaded :
  fst <$> load_station_info tie_valid tie_catalog = Ok tie_info.
Proof. by_compute. Qed.

Lemma line_neighbors_built :
  build_neighbors line_metric line_valid line_catalog = Ok line_neighbors.
Proof. by_compute. Qed.

(** * Part IV: the properties of the specification *)

(** ** The slice imputation worker *)

(** C1: a cell is filled if and only if the scan finds [MIN_NEIGHBORS]
    candidates, and is logged once otherwise.  The code departs from this on
    [site_slice]: station [B] has no reading, its three nearest neighbours
    [A], [P], [R] have one, so the quorum is found; all three are at distance
    0, and the worker returns the slice with [B] still missing and an empty
    log. *)
Theorem quorum_found_but_cell_missing_and_unlogged :
  frame_get site_slice "B" 0 = Some None
  ∧ quorum_found site_slice 0 (neighbors_of site_neighbors "B")
  ∧ ∃ out,
      impute_slice "w" ("t", site_slice, site_neighbors) = Ok (out, [])
      ∧ frame_get out "B" 0 = Some None.
Proof.
  split; [reflexivity|]. split.
  - apply (bool_decide_unpack _). vm_compute. exact I.
  - eexists. split; vm_compute; reflexivity.
Qed.

(** C3: the weights of the candidates of a cell sum to zero (every candidate
    at distance 0).  The worker has no branch for this case: the division of
    line 157 is [0.0 / 0], the cell receives NaN, nothing is raised and no log
    line is written. *)
Theorem zero_weight_sum_writes_nan_silently
    t proc neighbors grp s col log :
  wf_frame grp → col < ncols grp →
  frame_get grp s col = Some None →
  quorum_found grp col (neighbors_of neighbors s) →
  (Qsum (idw_weight <$> (cell_avail neighbors grp s col).*2) == 0)%Q →
  ∃ grp',
    impute_cell t proc neighbors (s, col) (grp, log) = Ok (grp', log)
    ∧ frame_get grp' s col = Some None.
Proof.
  intros Hwf Hcol Hmiss Hq Hz.
  pose proof (frame_get_index _ _ _ _ Hmiss) as Hs.
  rewrite impute_cell_step by done. unfold cell_step. simpl.
  rewrite Hmiss, decide_True by done. eexists. split; [reflexivity|].
  rewrite frame_get_df_set, decide_True, Hmiss by done. simpl. f_equal.
  destruct (cell_estimate neighbors grp s col) as [e|] eqn:He; [|done].
  exfalso. eapply cell_estimate_is_Some; [|exact Hz]. by rewrite He.
Qed.

Lemma zero_weight_sum_writes_nan_silently_witness :
  ∃ grp',
    impute_cell "t" "w" site_neighbors ("B", 0) (site_slice, []) = Ok (grp', [])
    ∧ frame_get grp' "B" 0 = Some None.
Proof.
  apply (zero_weight_sum_writes_nan_silently "t" "w" site_neighbors site_slice "B" 0 []).
  - apply (bool_decide_unpack _). vm_compute. exact I.
  - vm_compute. lia.
  - reflexivity.
  - apply (bool_decide_unpack _). vm_compute. exact I.
  - vm_compute. reflexivity.
Defined.

(** C5: the value written into a filled cell is the weighted average of the
    candidate values, its weights are not negative and their sum is positive,
    and it lies between the smallest and the largest candidate value.  The
    candidates are read in the working copy [before] that the loops have
    produced when they reach the cell. *)
Theorem imputed_value_within_candidate_range
    proc t grp neighbors pre s col post out log e :
  wf_frame grp →
  cells grp = pre ++ (s, col) :: post →
  frame_get grp s col = Some None →
  impute_slice proc (t, grp, neighbors) = Ok (out, log) →
  frame_get out s col = Some (Some e) →
  let before := (run_cells t proc neighbors pre (grp, [])).1 in
  let avail := cell_avail neighbors before s col in
  let vals := value_of before col <$> avail in
  let w := idw_weight <$> avail.*2 in
  Forall (fun x => (0 <= x)%Q) w
  ∧ (0 < Qsum w)%Q
  ∧ e = (Qsum (zip_with Qmult vals w) / Qsum w)%Q
  ∧ (Qlist_min vals <= e <= Qlist_max vals)%Q.
Proof.
  intros Hwf Hcells Hmiss Hrun Hfilled before avail vals w.
  destruct (worker_cell_outcome proc t grp neighbors pre s col post Hwf Hcells Hmiss)
    as (out' & log' & Hrun' & _ & _ & Hout).
  rewrite Hrun in Hrun'. injection Hrun' as <- <-.
  fold before in Hout. destruct (decide _) as [Hq|Hq].
  2:{ destruct Hout as [Hout _]. rewrite Hfilled in Hout. done. }
  destruct Hout as [Hout _]. rewrite Hfilled in Hout. injection Hout as Hest.
  unfold cell_estimate in Hest. fold avail in Hest.
  rewrite (list_fmap_compose (value_of before col) Some) in Hest.
  fold vals in Hest. symmetry in Hest.
  assert (Forall (fun x => (0 <= x)%Q) w) as Hw.
  { apply Forall_fmap, Forall_true. intros d. apply idw_weight_nonneg. }
  pose proof (idw_estimate_bounds vals (avail.*2) e) as Hb.
  rewrite idw_estimate_numbers in Hest. fold w in Hest.
  destruct (Qeq_bool (Qsum w) 0) eqn:Hz; [done|]. injection Hest as Hest.
  apply Qeq_bool_neq in Hz. pose proof (Qsum_nonneg w Hw).
  split; [done|]. split; [lra|]. split; [done|].
  apply Hb.
  - unfold vals. by rewrite !length_fmap.
  - rewrite idw_estimate_numbers. fold w.
    destruct (Qeq_bool (Qsum w) 0) eqn:Hz'; [by apply Qeq_bool_eq in Hz'|].
    by rewrite Hest.
Qed.

Lemma imputed_value_within_candidate_range_witness :
  ∃ out log e,
    impute_slice "w" ("t", line_slice_AB, line_neighbors) = Ok (out, log)
    ∧ frame_get out "B" 0 = Some (Some e)
    ∧ (Qlist_min (value_of line_before_B 0
                    <$> cell_avail line_neighbors line_before_B "B" 0) <= e
       <= Qlist_max (value_of line_before_B 0
                       <$> cell_avail line_neighbors line_before_B "B" 0))%Q.
Proof.
  eexists _, _, _. split; [vm_compute; reflexivity|].
  split; [vm_compute; reflexivity|].
  eapply (imputed_value_within_candidate_range "w" "t" line_slice_AB line_neighbors
            [("A", 0)] "B" 0 [("C", 0); ("D", 0); ("E", 0)]).
  - apply (bool_decide_unpack _). vm_compute. exact I.
  - reflexivity.
  - reflexivity.
  - vm_compute. reflexivity.
  - vm_compute. reflexivity.
Defined.


(** ** The station catalog and the neighbour graph *)









(** ** The parallel controller and the result assembler *)

(** C2, counterexample: station [A] has two rows at time [t1]; the worker of
    that slice raises ValueError, the worker of the slice [t2] completes, and
    the run ends with the ValueError: there is no final result and no summary. *)
Lemma worker_failure_aborts_the_run :
  let df0 := [mkRow "A" (Some "t1") [None]; mkRow "A" (Some "t1") [Some 1%Q];
              mkRow "A" (Some "t2") [Some 5%Q]] in
  let station_meta := [mkMeta "A" (PNum 121) (PNum 24) (PNum 10)] in
  worker (fun _ => "w") ("t1", slice_of 1 df0 "t1", site_neighbors) = Raise ValueError
  ∧ is_ok (worker (fun _ => "w") ("t2", slice_of 1 df0 "t2", site_neighbors)) = true
  ∧ run_from_table (fun _ => "w") 1 df0 station_meta site_neighbors = Raise ValueError.
Proof. split_and!; by_compute. Qed.

(** C2, amended: the results are fetched in slice order and the exception of
    the first slice whose worker raises is raised again in [main]; the run
    ends there, without a failure summary and without an output table. *)
Theorem first_worker_failure_aborts_run
    proc_of nfeat df0 station_meta neighbors pre g post e :
  make_groups nfeat df0 neighbors = Ok (pre ++ g :: post) →
  Forall (fun x => is_ok (worker proc_of x) = true) pre →
  worker proc_of g = Raise e →
  run_from_table proc_of nfeat df0 station_meta neighbors = Raise e.
Proof.
  intros Hgroups Hpre Hg. unfold run_from_table. rewrite Hgroups. simpl.
  unfold exe_map. by rewrite (mapM_result_first_failure _ pre g post e).
Qed.

Lemma first_worker_failure_aborts_run_witness :
  run_from_table (fun _ => "w") 1
    [mkRow "A" (Some "t1") [Some 5%Q]; mkRow "B" (Some "t2") [None];
     mkRow "B" (Some "t2") [Some 1%Q]; mkRow "A" (Some "t3") [Some 2%Q]]
    [mkMeta "A" (PNum 121) (PNum 24) (PNum 10)] site_neighbors
  = Raise ValueError.
Proof.
  apply (first_worker_failure_aborts_run _ _ _ _ _
           [("t1", mkFrame 1 [("A", [Some 5%Q])], site_neighbors)]
           ("t2", mkFrame 1 [("B", [None]); ("B", [Some 1%Q])], site_neighbors)
           [("t3", mkFrame 1 [("A", [Some 2%Q])], site_neighbors)]).
  - by_compute.
  - repeat constructor.
  - by_compute.
Defined.

(** C6, counterexample: a row without a timestamp is in no group and does not
    reach the output; a station with two metadata records has every row twice
    in the output. *)
Lemma rows_dropped_and_duplicated :
  (∃ out,
     run_from_table (fun _ => "w") 1
       [mkRow "A" None [Some 1%Q]; mkRow "B" (Some "t") [Some 2%Q]]
       [mkMeta "A" (PNum 121) (PNum 24) (PNum 10);
        mkMeta "B" (PNum 121) (PNum 24) (PNum 10)] site_neighbors = Ok out
     ∧ out_pairs out = [("B", Some "t")])
  ∧ (∃ out,
       run_from_table (fun _ => "w") 1
         [mkRow "B" (Some "t") [Some 2%Q]]
         [mkMeta "B" (PNum 121) (PNum 24) (PNum 10);
          mkMeta "B" (PNum 121) (PNum 24) PNaN] site_neighbors = Ok out
       ∧ out_pairs out = [("B", Some "t"); ("B", Some "t")]).
Proof. split; eexists; split; by_compute. Qed.

(** C6, amended: when every row of the flattened table has a timestamp, no
    (StationID, Timestamp) pair occurs twice in it and no station has more
    than one metadata record, the output holds every pair of the input
    exactly once: its pairs are a permutation of those of the input, none is
    repeated, and it has as many rows as the input. *)
Theorem output_rows_match_input_pairs
    proc_of nfeat df0 station_meta neighbors :
  df0 ≠ [] → station_meta ≠ [] →
  Forall (fun r => length (features r) = nfeat) df0 →
  Forall (fun r => is_Some (DataTime r)) df0 →
  NoDup (flat_pairs df0) →
  NoDup (meta_StationID <$> station_meta) →
  ∃ out,
    run_from_table proc_of nfeat df0 station_meta neighbors = Ok out
    ∧ out_pairs out ≡ₚ flat_pairs df0
    ∧ NoDup (out_pairs out)
    ∧ length out = length df0.
Proof.
  intros Hdf0 Hmeta Hlen Hts Hnd Hmnd.
  unfold run_from_table, make_groups. destruct df0 as [|r0 df0']; [done|].
  set (df0 := r0 :: df0') in *. clearbody df0. simpl. unfold exe_map.
  rewrite (mapM_result_ok (worker proc_of)
             (fun x => run_cells x.1.1 (proc_of x.1.1) x.2 (cells x.1.2) (x.1.2, []))).
  2:{ intros x Hx. apply list_elem_of_fmap in Hx as (t & -> & _).
      by apply worker_on_slice. }
  simpl. rewrite zip_with_fmap_same, <- list_fmap_compose.
  assert (group_keys df0 ≠ []) as Hkeys.
  { destruct df0 as [|r df0'']; [done|].
    apply Forall_cons in Hts as [[t Ht] _].
    assert (t ∈ group_keys (r :: df0'')) as Hin
      by (apply elem_of_group_keys; exists r; split; [left | done]).
    intros Hnil. rewrite Hnil in Hin. by apply elem_of_nil in Hin. }
  destruct (group_keys df0) as [|t0 keys] eqn:Hk; [done|]. rewrite <- Hk.
  assert (∀ F : string → list (string * string * list float),
            pd_concat (F <$> group_keys df0) = Ok (concat (F <$> group_keys df0)))
    as -> by (intros F; by rewrite Hk).
  simpl.
  destruct (merge_left _ station_meta) as [out|e] eqn:Hmerge.
  2:{ unfold merge_left in Hmerge. by destruct station_meta. }
  exists out. split; [done|].
  assert (out_pairs out ≡ₚ flat_pairs df0) as Hperm.
  { rewrite (merge_left_pairs _ _ _ Hmnd Hmerge).
    rewrite (pairs_of_groups _ (group_keys df0) df0).
    - unfold flat_pairs. by rewrite groups_cover.
    - intros t. apply assigned_pairs. }
  split; [done|]. split; [by rewrite Hperm|].
  rewrite <- (length_fmap (fun r => (out_StationID r, Some (out_DataTime r)))),
          <- (length_fmap (fun r => (StationID r, DataTime r)) df0).
  by apply Permutation_length.
Qed.

Lemma output_rows_match_input_pairs_witness :
  ∃ out,
    run_from_table (fun _ => "w") 1
      [mkRow "A" (Some "t1") [None]; mkRow "B" (Some "t1") [Some 2%Q];
       mkRow "A" (Some "t2") [Some 3%Q]]
      [mkMeta "A" (PNum 121) (PNum 24) (PNum 10)] site_neighbors = Ok out
    ∧ out_pairs out
      ≡ₚ flat_pairs [mkRow "A" (Some "t1") [None]; mkRow "B" (Some "t1") [Some 2%Q];
                     mkRow "A" (Some "t2") [Some 3%Q]]
    ∧ NoDup (out_pairs out)
    ∧ length out = 3.
Proof.
  apply (output_rows_match_input_pairs (fun _ => "w") 1
           [mkRow "A" (Some "t1") [None]; mkRow "B" (Some "t1") [Some 2%Q];
            mkRow "A" (Some "t2") [Some 3%Q]]).
  - discriminate.
  - discriminate.
  - repeat constructor.
  - repeat constructor; eexists; reflexivity.
  - by_compute.
  - by_compute.
Defined.

(** ** The record flattener *)

(** C8, counterexample: the directory of [A] holds a file that [json.load]
    rejects and a good file.  The run ends with the decoding error; without
    the first file the second yields its observation, with the placeholder
    code [-99.5] replaced by NaN. *)
Lemma unparseable_file_aborts_the_run :
  flatten_and_clean {[ "A" ]} [("A", [("d1.json", None); ("d2.json", Some good_file)])]
  = Raise JSONDecodeError
  ∧ ∃ r,
      flatten_and_clean {[ "A" ]} [("A", [("d2.json", Some good_file)])] = Ok [r]
      ∧ rec_StationID r = "A"
      ∧ rec_DataTime r = PStr "2024-01-01T01:00:00"
      ∧ dict_get (rec_values r) "AirTemperature_Instantaneous" = Some PNaN
      ∧ dict_get (rec_values r) "Precipitation_Accumulation" = Some (PNum (5 # 10)).
Proof. split; [by_compute|]. eexists. split_and!; by_compute. Qed.

(** C8, amended: a file that [json.load] accepts and that has none of the
    three shapes adds no row, silently, and the run goes on as if the file
    were not there; a file that [json.load] rejects ends the run with its
    exception. *)
Theorem shapeless_file_skipped_unparseable_file_fatal
    valid his_root pre sid fname content post :
  json_files valid his_root = pre ++ (sid, fname, content) :: post →
  match content with
  | Some data =>
      recognized_shape data = false →
      flatten_and_clean valid his_root = for_each (pre ++ post) flatten_step []
  | None => is_ok (flatten_and_clean valid his_root) = false
  end.
Proof.
  intros Hfiles. unfold flatten_and_clean. rewrite Hfiles.
  destruct content as [data|].
  - intros Hshape. apply for_each_skip. intros records.
    unfold flatten_step. cbn [fst snd].
    rewrite flatten_file_unrecognized by done. simpl. by rewrite app_nil_r.
  - apply (for_each_raises _ _ (sid, fname, None)).
    + apply elem_of_app. right. left.
    + done.
Qed.

Lemma shapeless_file_skipped_unparseable_file_fatal_witness :
  flatten_and_clean {[ "A" ]}
    [("A", [("d1.json", Some (PDict [("error", PStr "no data")]));
            ("d2.json", Some good_file)])]
  = for_each [("A", "d2.json", Some good_file)] flatten_step [].
Proof.
  apply (shapeless_file_skipped_unparseable_file_fatal {[ "A" ]}
           [("A", [("d1.json", Some (PDict [("error", PStr "no data")]));
                   ("d2.json", Some good_file)])]
           [] "A" "d1.json" (Some (PDict [("error", PStr "no data")]))
           [("A", "d2.json", Some good_file)]).
  - by_compute.
  - by_compute.
Defined.

(** * Part V: further properties of the code *)

(** ** The record flattener *)

(** X1: every record of the flattened table has the same value columns: the
    27 distinct names [group_sub] of the schema, in the order of the
    schema. *)
Theorem flattened_records_have_the_schema_columns valid his_root records :
  flatten_and_clean valid his_root = Ok records →
  Forall (fun r => dict_keys (rec_values r) = feature_cols) records
  ∧ NoDup feature_cols
  ∧ length feature_cols = 27.
Proof.
  intros H. apply flatten_and_clean_records in H as [H _].
  split; [|split; by_compute].
  eapply Forall_impl; [exact H|]. by intros r (_ & _ & Hc & _).
Qed.

Lemma flattened_records_have_the_schema_columns_witness :
  ∃ records,
    flatten_and_clean {[ "A" ]} [("A", [("d2.json", Some good_file)])] = Ok records
    ∧ Forall (fun r => dict_keys (rec_values r) = feature_cols) records.
Proof.
  eexists. split; [by_compute|].
  apply (flattened_records_have_the_schema_columns {[ "A" ]}
           [("A", [("d2.json", Some good_file)])]).
  by_compute.
Defined.

(** X2: no value of a record of the flattened table is a number equal to one
    of the placeholder codes. *)
Theorem flattened_records_hold_no_placeholder valid his_root records :
  flatten_and_clean valid his_root = Ok records →
  Forall (fun r => Forall (fun kv => ¬ is_sentinel kv.2) (rec_values r)) records.
Proof.
  intros H. apply flatten_and_clean_records in H as [H _].
  eapply Forall_impl; [exact H|]. by intros r (_ & _ & _ & Hc).
Qed.

Lemma flattened_records_hold_no_placeholder_witness :
  ∃ records,
    flatten_and_clean {[ "A" ]} [("A", [("d2.json", Some good_file)])] = Ok records
    ∧ Forall (fun r => Forall (fun kv => ¬ is_sentinel kv.2) (rec_values r)) records.
Proof.
  eexists. split; [by_compute|].
  apply (flattened_records_hold_no_placeholder {[ "A" ]}
           [("A", [("d2.json", Some good_file)])]).
  by_compute.
Defined.

(** X3: the records of the flattened table come from valid stations that have
    a directory, and they are in ascending order of the station id. *)
Theorem flattened_records_in_station_order valid his_root records :
  flatten_and_clean valid his_root = Ok records →
  Forall (fun r => rec_StationID r ∈ valid
                   ∧ is_Some (dict_get his_root (rec_StationID r))) records
  ∧ StronglySorted
      (fun a b => String.leb (rec_StationID a) (rec_StationID b) = true) records.
Proof.
  intros H. apply flatten_and_clean_records in H as [H Hs]. split; [|done].
  eapply Forall_impl; [exact H|]. by intros r (? & ? & _).
Qed.

Lemma flattened_records_in_station_order_witness :
  ∃ records,
    flatten_and_clean {[ "B"; "A" ]}
      [("B", [("d2.json", Some good_file)]); ("A", [("d2.json", Some good_file)])]
    = Ok records
    ∧ StronglySorted
        (fun a b => String.leb (rec_StationID a) (rec_StationID b) = true) records.
Proof.
  eexists. split; [by_compute|].
  apply (flattened_records_in_station_order {[ "B"; "A" ]}
           [("B", [("d2.json", Some good_file)]); ("A", [("d2.json", Some good_file)])]).
  by_compute.
Defined.

(** X4: a file of a recognized shape in which an item is not an object aborts
    the flattening: nothing catches the exception of [item.get]. *)
Theorem malformed_item_aborts_flattening
    valid his_root j sid fname data items i item :
  json_files valid his_root !! j = Some (sid, fname, Some data) →
  py_iter (select_items data) = Ok items →
  items !! i = Some item → is_dict item = false →
  is_ok (flatten_and_clean valid his_root) = false.
Proof.
  intros Hjob Hitems Hitem Hdict. unfold flatten_and_clean.
  apply list_elem_of_lookup_2 in Hjob, Hitem.
  apply (for_each_raises _ _ (sid, fname, Some data)); [done|].
  intros records. unfold flatten_step, flatten_file. simpl. rewrite Hitems. simpl.
  assert (is_ok (mapM (flatten_item sid) items) = false) as Hm.
  { apply (mapM_not_ok _ _ item); [done|]. by destruct item. }
  by destruct (mapM (flatten_item sid) items).
Qed.

Lemma malformed_item_aborts_flattening_witness :
  is_ok (flatten_and_clean {[ "A" ]}
           [("A", [("d1.json", Some (PList [PNum 1])); ("d2.json", Some good_file)])])
  = false.
Proof.
  apply (malformed_item_aborts_flattening {[ "A" ]}
           [("A", [("d1.json", Some (PList [PNum 1])); ("d2.json", Some good_file)])]
           0 "A" "d1.json" (PList [PNum 1]) [PNum 1] 0 (PNum 1)).
  - by_compute.
  - by_compute.
  - by_compute.
  - by_compute.
Defined.

(** X5: an hourly entry in which every measurement group is absent, null or
    otherwise falsy still gives a record: each of the 27 value columns holds
    [None], and the timestamp is the entry's [DataTime] or [None]. *)
Theorem entry_without_groups_gives_empty_record sid kv :
  Forall (fun g => py_truthy (default PNone (dict_get kv g)) = false) fields.*1 →
  flatten_entry sid (PDict kv)
  = Ok (mkRecord sid (default PNone (dict_get kv "DataTime"))
          ((fun c => (c, PNone)) <$> feature_cols)).
Proof.
  intros Hfalsy. rewrite Forall_forall in Hfalsy. unfold flatten_entry.
  rewrite (mapM_result_ok (flatten_group (PDict kv))
             (fun gs => (fun sub => (gs.1 +:+ "_" +:+ sub, PNone)) <$> gs.2)).
  - reflexivity.
  - intros gs Hgs. unfold flatten_group. simpl.
    assert (py_or (default (PDict []) (dict_get kv gs.1)) (PDict []) = PDict []) as ->.
    { assert (gs.1 ∈ fields.*1) as Hg by (apply list_elem_of_fmap; eauto).
      specialize (Hfalsy _ Hg). unfold py_or.
      destruct (dict_get kv gs.1) as [v|]; simpl in *; [|done]. by rewrite Hfalsy. }
    by apply mapM_result_ok.
Qed.

Lemma entry_without_groups_gives_empty_record_witness :
  flatten_entry "A" (PDict [("DataTime", PStr "t"); ("Precipitation", PNone)])
  = Ok (mkRecord "A" (PStr "t") ((fun c => (c, PNone)) <$> feature_cols)).
Proof.
  apply (entry_without_groups_gives_empty_record "A"
           [("DataTime", PStr "t"); ("Precipitation", PNone)]).
  apply (bool_decide_unpack _). vm_compute. exact I.
Defined.

(** ** The station catalog *)

(** X6: on any catalog document on which the catalog step returns, the
    metadata table has one row for every visited entry whose id is a valid
    station, in the order of the catalog, and the stations of the table are
    the keys of the station map. *)
Theorem station_meta_rows_follow_catalog valid meta info station_meta :
  load_station_info valid meta = Ok (info, station_meta) →
  ∃ items,
    catalog_items meta = Ok items
    ∧ station_meta = meta_row <$> omap (item_entry valid) items
    ∧ ∀ s, s ∈ dict_keys info ↔ s ∈ meta_StationID <$> station_meta.
Proof.
  intros H. apply load_station_info_entries in H as (items & Hitems & -> & Hkeys & _).
  exists items. split; [done|]. split; [done|]. intros s.
  rewrite Hkeys, <- list_fmap_compose. done.
Qed.

Lemma station_meta_rows_follow_catalog_witness :
  ∃ info station_meta,
    load_station_info {[ "A"; "B" ]} moved_catalog = Ok (info, station_meta)
    ∧ meta_StationID <$> station_meta = ["B"; "A"; "A"]
    ∧ ∃ items,
        catalog_items moved_catalog = Ok items
        ∧ station_meta = meta_row <$> omap (item_entry {[ "A"; "B" ]}) items
        ∧ ∀ s, s ∈ dict_keys info ↔ s ∈ meta_StationID <$> station_meta.
Proof.
  eexists _, _. split; [by_compute|]. split; [by_compute|].
  apply (station_meta_rows_follow_catalog {[ "A"; "B" ]} moved_catalog).
  by_compute.
Defined.

(** X7: when the catalog lists a valid station more than once, the station
    map holds the coordinates of its last entry in the order of the
    catalog. *)
Theorem station_map_keeps_last_entry valid meta info station_meta :
  load_station_info valid meta = Ok (info, station_meta) →
  ∃ items,
    catalog_items meta = Ok items
    ∧ ∀ s, dict_get info s
           = snd <$> last (filter (fun e => e.1 = s) (omap (item_entry valid) items)).
Proof.
  intros H. apply load_station_info_entries in H as (items & Hitems & _ & _ & Hget).
  by exists items.
Qed.

Lemma station_map_keeps_last_entry_witness :
  ∃ info station_meta,
    load_station_info {[ "A"; "B" ]} moved_catalog = Ok (info, station_meta)
    ∧ dict_get info "A" = Some (mkInfo (PNum 123) (PNum 24) (PNum 10))
    ∧ ∃ items,
        catalog_items moved_catalog = Ok items
        ∧ ∀ s, dict_get info s
               = snd <$> last (filter (fun e => e.1 = s)
                                 (omap (item_entry {[ "A"; "B" ]}) items)).
Proof.
  eexists _, _. split; [by_compute|]. split; [by_compute|].
  eapply (station_map_keeps_last_entry {[ "A"; "B" ]} moved_catalog).
  by_compute.
Defined.

(** ** The station list cleaner *)

(** X8: the list that the cleaner writes is in ascending order, without
    repetition and without an empty id. *)
Theorem extracted_ids_sorted_and_distinct data ids :
  extract_valid_station_ids data = Ok ids →
  StronglySorted (fun a b => String.leb a b = true) ids
  ∧ NoDup ids
  ∧ Forall (fun s => s ≠ EmptyString) ids.
Proof.
  intros H. pose proof (elem_of_extracted _ _ H) as (items & _ & Hin).
  apply extract_valid_station_ids_collected in H as (_ & collected & _ & _ & ->).
  split; [|split].
  - apply (sort_by_sorted String.leb id String.leb_total String_leb_trans).
  - rewrite sort_by_Permutation. apply NoDup_remove_dups.
  - apply Forall_forall. intros s Hs. apply Hin in Hs as (item & _ & Hs).
    apply active_id_truthy in Hs. simpl in Hs. intros ->. done.
Qed.

Lemma extracted_ids_sorted_and_distinct_witness :
  ∃ ids,
    extract_valid_station_ids moved_catalog = Ok ids
    ∧ ids = ["A"; "B"]
    ∧ StronglySorted (fun a b => String.leb a b = true) ids
    ∧ NoDup ids
    ∧ Forall (fun s => s ≠ EmptyString) ids.
Proof.
  eexists. split; [by_compute|]. split; [by_compute|].
  apply (extracted_ids_sorted_and_distinct moved_catalog).
  by_compute.
Defined.

(** X9: the cleaner lists a station exactly when some visited entry of the
    catalog has no end date and has this id. *)
Theorem extracted_ids_are_the_active_stations data ids :
  extract_valid_station_ids data = Ok ids →
  ∃ items,
    catalog_items data = Ok items
    ∧ ∀ s, s ∈ ids ↔ ∃ item, item ∈ items ∧ active_id item = Some (PStr s).
Proof. apply elem_of_extracted. Qed.

Lemma extracted_ids_are_the_active_stations_witness :
  ∃ items,
    catalog_items moved_catalog = Ok items
    ∧ ∀ s, s ∈ ["A"; "B"] ↔ ∃ item, item ∈ items ∧ active_id item = Some (PStr s).
Proof.
  apply (extracted_ids_are_the_active_stations moved_catalog ["A"; "B"]).
  by_compute.
Defined.

(** X10: the cleaner and the catalog step agree.  When the valid stations are
    the ids that the cleaner extracts from a catalog, the station map that
    the catalog step builds from the same catalog has exactly these ids as
    keys: no valid station is without coordinates. *)
Theorem extracted_ids_are_all_catalogued meta ids info station_meta :
  extract_valid_station_ids meta = Ok ids →
  load_station_info (list_to_set ids) meta = Ok (info, station_meta) →
  dict_keys info ≡ₚ ids
  ∧ length (dict_keys info) = size (list_to_set ids : gset string).
Proof.
  intros Hex Hload.
  pose proof (load_station_info_ok _ _ _ Hload) as [Hnd Hsub]. simpl in *.
  apply elem_of_extracted in Hex as Hin. destruct Hin as (items & Hitems & Hin).
  apply extract_valid_station_ids_collected in Hex as (_ & collected & _ & _ & Hids).
  assert (NoDup ids) as Hndi.
  { rewrite Hids, sort_by_Permutation. apply NoDup_remove_dups. }
  apply load_station_info_entries in Hload as (items' & Hitems' & _ & Hkeys & _).
  rewrite Hitems in Hitems'. injection Hitems' as <-.
  assert (dict_keys info ≡ₚ ids) as Hperm.
  { apply NoDup_Permutation; [done..|]. intros s. split.
    - intros Hs. apply Hsub in Hs. by apply elem_of_list_to_set in Hs.
    - intros Hs. apply Hkeys. apply Hin in Hs as Hitem.
      destruct Hitem as (item & Hitem & Hact).
      destruct (active_id_entry (list_to_set ids) item s Hact) as [i Hi].
      { by apply elem_of_list_to_set. }
      apply list_elem_of_fmap. exists (s, i). split; [done|].
      apply list_elem_of_omap. eauto. }
  split; [done|]. rewrite Hperm. symmetry. by apply size_list_to_set.
Qed.

Lemma extracted_ids_are_all_catalogued_witness :
  ∃ info station_meta,
    load_station_info (list_to_set ["A"; "B"]) moved_catalog = Ok (info, station_meta)
    ∧ dict_keys info ≡ₚ ["A"; "B"].
Proof.
  eexists _, _. split; [by_compute|].
  eapply (extracted_ids_are_all_catalogued moved_catalog ["A"; "B"]).
  - by_compute.
  - by_compute.
Defined.

(** X11: an entry in service whose id is not a string makes the cleaner raise
    TypeError; no list is written. *)
Theorem non_string_id_aborts_extraction data items i item v :
  catalog_items data = Ok items →
  forallb is_dict items = true →
  items !! i = Some item →
  active_id item = Some v →
  is_ok (str_of v) = false →
  extract_valid_station_ids data = Raise TypeError.
Proof.
  intros Hitems Hdicts Hitem Hact Hv.
  unfold catalog_items in Hitems.
  apply bind_Ok_inv in Hitems as (grps & Hg & Hitems).
  apply bind_Ok_inv in Hitems as (yss & Hy & Hitems). injection Hitems as <-.
  unfold extract_valid_station_ids. rewrite Hg. simpl.
  change (for_each grps extract_group [])
    with (for_each grps (fun x st => ys ← group_items x; for_each ys extract_item st) []).
  rewrite (for_each_nested_eq group_items extract_item grps yss) by done.
  rewrite for_each_extract_dicts.
  2:{ apply Forall_forall. intros x Hx.
      rewrite forallb_forall in Hdicts. by apply Hdicts, list_elem_of_In. }
  simpl.
  assert (mapM str_of (omap active_id (concat yss)) = Raise TypeError) as ->; [|done].
  apply (mapM_raises_only str_of TypeError _ v); [| |done].
  - intros y e' Hy'. destruct y; simpl in Hy'; congruence.
  - apply list_elem_of_omap. exists item. split; [|done].
    by eapply list_elem_of_lookup_2.
Qed.

Lemma non_string_id_aborts_extraction_witness :
  extract_valid_station_ids
    (PDict [("data",
             PList [PDict [("item",
                            PList [station_entry "A" EmptyString 120;
                                   PDict [("stationID", PNum 4670)]])]])])
  = Raise TypeError.
Proof.
  eapply (non_string_id_aborts_extraction _ _ 1 _ (PNum 4670)).
  - by_compute.
  - by_compute.
  - by_compute.
  - by_compute.
  - by_compute.
Defined.

(** ** The neighbour graph builder *)

(** X12: the neighbour map has the keys of the station map, in the same
    order, and the list of a station holds every other station of the map
    exactly once. *)
Theorem neighbor_lists_hold_every_other_station_once metric station_info :
  NoDup (dict_keys station_info) →
  dict_keys (compute_and_cache_neighbors metric station_info) = dict_keys station_info
  ∧ ∀ sid, sid ∈ dict_keys station_info →
      ∃ l, dict_get (compute_and_cache_neighbors metric station_info) sid = Some l
           ∧ station <$> l ≡ₚ filter (fun o => o ≠ sid) (dict_keys station_info).
Proof.
  intros Hnd. split; [by apply neighbors_keys|]. intros sid Hsid.
  exists (neighbor_list metric station_info sid).
  rewrite neighbors_lookup, decide_True by done. split; [done|].
  apply neighbor_list_stations.
Qed.

Lemma neighbor_lists_hold_every_other_station_once_witness :
  dict_keys (compute_and_cache_neighbors line_metric line_info) = dict_keys line_info
  ∧ ∀ sid, sid ∈ dict_keys line_info →
      ∃ l, dict_get (compute_and_cache_neighbors line_metric line_info) sid = Some l
           ∧ station <$> l ≡ₚ filter (fun o => o ≠ sid) (dict_keys line_info).
Proof.
  apply (neighbor_lists_hold_every_other_station_once line_metric line_info).
  by_compute.
Defined.

(** X13: the recorded distances are symmetric when the distance formula is:
    if it gives the same number for a pair of stations in both orders, the
    distance recorded for the second in the list of the first is the distance
    recorded for the first in the list of the second. *)
Theorem recorded_distances_are_symmetric
    metric station_info sid o i j l k d :
  NoDup (dict_keys station_info) →
  dict_get station_info sid = Some i →
  dict_get station_info o = Some j →
  (metric i j == metric j i)%Q →
  dict_get (compute_and_cache_neighbors metric station_info) sid = Some l →
  l !! k = Some (mkNeighbor o d) →
  ∃ l' k' d',
    dict_get (compute_and_cache_neighbors metric station_info) o = Some l'
    ∧ l' !! k' = Some (mkNeighbor sid d')
    ∧ (d' == d)%Q.
Proof.
  intros Hnd Hi Hj Hsym Hl Hk.
  apply neighbors_lookup_Some in Hl as [Hsid ->]; [|done].
  apply list_elem_of_lookup_2, elem_of_neighbor_list in Hk as (Ho & Hne & Hd).
  simpl in *.
  exists (neighbor_list metric station_info o).
  assert (mkNeighbor sid (py_round4 (distance_3d metric station_info o sid))
          ∈ neighbor_list metric station_info o) as Hin.
  { apply elem_of_neighbor_list. simpl. split; [done|]. split; [congruence|done]. }
  apply list_elem_of_lookup in Hin as [k' Hk'].
  exists k', (py_round4 (distance_3d metric station_info o sid)).
  rewrite neighbors_lookup, decide_True by done. split; [done|]. split; [done|].
  rewrite Hd. apply py_round4_proper. unfold distance_3d. rewrite Hi, Hj.
  by symmetry.
Qed.

Lemma recorded_distances_are_symmetric_witness :
  ∃ l' k' d',
    dict_get (compute_and_cache_neighbors line_metric line_info) "C" = Some l'
    ∧ l' !! k' = Some (mkNeighbor "A" d')
    ∧ (d' == py_round4 200)%Q.
Proof.
  eapply (recorded_distances_are_symmetric line_metric line_info "A" "C" _ _ _ 1).
  - by_compute.
  - by_compute.
  - by_compute.
  - by_compute.
  - by_compute.
  - by_compute.
Defined.

(** X14: the distance recorded for a neighbour differs from the distance that
    the formula gives by at most 0.00005 km, and is not negative when the
    formula's is not. *)
Theorem recorded_distance_within_rounding_error metric station_info sid l k n :
  NoDup (dict_keys station_info) →
  dict_get (compute_and_cache_neighbors metric station_info) sid = Some l →
  l !! k = Some n →
  (Qabs (distance_km n - distance_3d metric station_info sid (station n))
   <= 1 # 20000)%Q
  ∧ ((0 <= distance_3d metric station_info sid (station n))%Q
     → (0 <= distance_km n)%Q).
Proof.
  intros Hnd Hl Hk. apply neighbors_lookup_Some in Hl as [Hsid ->]; [|done].
  apply list_elem_of_lookup_2, elem_of_neighbor_list in Hk as (_ & _ & ->).
  split; [apply py_round4_error | apply py_round4_nonneg].
Qed.

Lemma recorded_distance_within_rounding_error_witness :
  (Qabs (py_round4 (1 # 1000)
         - distance_3d line_metric close_info "A" "B") <= 1 # 20000)%Q
  ∧ ((0 <= distance_3d line_metric close_info "A" "B")%Q
     → (0 <= py_round4 (1 # 1000))%Q).
Proof.
  eapply (recorded_distance_within_rounding_error line_metric close_info "A" _ 1
            (mkNeighbor "B" (py_round4 (1 # 1000)))).
  - by_compute.
  - by_compute.
  - by_compute.
Defined.

(** X15: a neighbour that the formula places less than 0.00005 km away is
    recorded at distance 0, and the worker gives it the weight 0. *)
Theorem neighbour_closer_than_rounding_gets_no_weight
    metric station_info sid l k n :
  NoDup (dict_keys station_info) →
  dict_get (compute_and_cache_neighbors metric station_info) sid = Some l →
  l !! k = Some n →
  (0 <= distance_3d metric station_info sid (station n))%Q →
  (distance_3d metric station_info sid (station n) < 1 # 20000)%Q →
  (distance_km n == 0)%Q ∧ idw_weight (distance_km n) = 0%Q.
Proof.
  intros Hnd Hl Hk Hlo Hhi. apply neighbors_lookup_Some in Hl as [Hsid ->]; [|done].
  apply list_elem_of_lookup_2, elem_of_neighbor_list in Hk as (_ & _ & ->).
  pose proof (py_round4_small _ Hlo Hhi) as Hz. split; [done|].
  apply idw_weight_zero. rewrite Hz. apply Qle_refl.
Qed.

Lemma neighbour_closer_than_rounding_gets_no_weight_witness :
  ∃ n,
    neighbor_list line_metric close_info "A" !! 0 = Some n
    ∧ station n = "C"
    ∧ (distance_km n == 0)%Q ∧ idw_weight (distance_km n) = 0%Q.
Proof.
  eexists. split; [by_compute|]. split; [by_compute|].
  eapply (neighbour_closer_than_rounding_gets_no_weight line_metric close_info "A" _ 0).
  - by_compute.
  - by_compute.
  - by_compute.
  - unfold Qle. simpl. lia.
  - by_compute.
Defined.

(** ** The slice imputation worker *)

(** X16: on a slice whose index has no repeated label the worker returns, and
    the slice it returns has the same index and the same columns, with every
    number of the input at its place: the worker only writes cells that were
    missing. *)
Theorem worker_keeps_observed_values proc t grp neighbors :
  wf_frame grp →
  ∃ out log,
    impute_slice proc (t, grp, neighbors) = Ok (out, log)
    ∧ index out = index grp
    ∧ ncols out = ncols grp
    ∧ ∀ s col q, frame_get grp s col = Some (Some q)
                 → frame_get out s col = Some (Some q).
Proof.
  intros Hwf. rewrite impute_slice_run_cells by done.
  eexists _, _. split; [apply f_equal, surjective_pairing|].
  split; [apply run_cells_index|]. split; [apply run_cells_ncols|].
  intros s col q Hq. by apply run_cells_observed.
Qed.

Lemma worker_keeps_observed_values_witness :
  ∃ out log,
    impute_slice "w" ("t", line_slice_AB, line_neighbors) = Ok (out, log)
    ∧ index out = index line_slice_AB
    ∧ ncols out = ncols line_slice_AB
    ∧ ∀ s col q, frame_get line_slice_AB s col = Some (Some q)
                 → frame_get out s col = Some (Some q).
Proof.
  apply (worker_keeps_observed_values "w" "t" line_slice_AB line_neighbors).
  by_compute.
Defined.

(** X17: every line that the worker logs carries the timestamp of the slice and
    the name of the process, and names a cell that was missing in the input
    and is still missing in the output; no cell is logged twice. *)
Theorem log_lines_name_cells_left_missing proc t grp neighbors out log :
  wf_frame grp →
  impute_slice proc (t, grp, neighbors) = Ok (out, log) →
  Forall (fun e => log_time e = t ∧ log_proc e = proc
                   ∧ frame_get grp (log_station e) (log_col e) = Some None
                   ∧ frame_get out (log_station e) (log_col e) = Some None) log
  ∧ NoDup log.
Proof.
  intros Hwf. rewrite impute_slice_run_cells by done. intros [= Hrun].
  apply (f_equal fst) in Hrun as Hout. apply (f_equal snd) in Hrun as Hlog.
  simpl in Hout, Hlog. subst out log. clear Hrun.
  pose proof (NoDup_cells grp (proj1 Hwf)) as Hnd. split.
  - apply Forall_forall. intros e He.
    apply run_cells_log in He as [He|(? & ? & _ & ? & ?)]; [|done|done].
    by apply elem_of_nil in He.
  - apply run_cells_log_NoDup; [done|constructor|].
    intros e He. by apply elem_of_nil in He.
Qed.

Lemma log_lines_name_cells_left_missing_witness :
  ∃ out log,
    impute_slice "w" ("t", sparse_slice, line_neighbors) = Ok (out, log)
    ∧ log = [mkLog "t" "w" "A" 0]
    ∧ Forall (fun e => log_time e = "t" ∧ log_proc e = "w"
                       ∧ frame_get sparse_slice (log_station e) (log_col e) = Some None
                       ∧ frame_get out (log_station e) (log_col e) = Some None) log
    ∧ NoDup log.
Proof.
  eexists _, _. split; [by_compute|]. split; [by_compute|].
  apply (log_lines_name_cells_left_missing "w" "t" sparse_slice line_neighbors).
  - by_compute.
  - by_compute.
Defined.

(** X18: a slice in which every cell holds a number is returned as it is, and
    nothing is logged. *)
Theorem complete_slice_is_returned_unchanged proc t grp neighbors :
  wf_frame grp → complete grp →
  impute_slice proc (t, grp, neighbors) = Ok (grp, []).
Proof.
  intros Hwf Hc. rewrite impute_slice_run_cells by done. f_equal.
  apply run_cells_not_missing, Forall_forall. intros [s col] _. simpl.
  intros H. by apply (frame_get_complete _ _ _ _ Hc) in H as [? ?].
Qed.

Lemma complete_slice_is_returned_unchanged_witness :
  impute_slice "w" ("t", full_slice, line_neighbors) = Ok (full_slice, []).
Proof.
  apply (complete_slice_is_returned_unchanged "w" "t" full_slice line_neighbors).
  - by_compute.
  - by_compute.
Defined.

(** X19: a missing cell of a station that has fewer than [MIN_NEIGHBORS]
    entries in the neighbour map, or no list at all, stays missing and gets
    one log line, whatever the slice holds. *)
Theorem station_with_few_neighbours_is_never_filled
    proc t grp neighbors s col :
  wf_frame grp →
  frame_get grp s col = Some None →
  length (neighbors_of neighbors s) < MIN_NEIGHBORS →
  ∃ out log,
    impute_slice proc (t, grp, neighbors) = Ok (out, log)
    ∧ frame_get out s col = Some None
    ∧ entries_for t s col log = 1.
Proof.
  intros Hwf Hmiss Hfew.
  pose proof (frame_get_cell _ _ _ _ Hwf Hmiss) as Hcell.
  apply list_elem_of_split in Hcell as (pre & post & Hcells).
  destruct (worker_cell_outcome proc t grp neighbors pre s col post Hwf Hcells Hmiss)
    as (out & log & Hrun & _ & _ & Hout).
  exists out, log. split; [done|].
  destruct (decide _) as [Hq|Hq]; [|done].
  exfalso. unfold quorum_found in Hq.
  pose proof (candidates_length
                (run_cells t proc neighbors pre (grp, [])).1 col
                (neighbors_of neighbors s)). lia.
Qed.

Lemma station_with_few_neighbours_is_never_filled_witness :
  ∃ out log,
    impute_slice "w" ("t", site_slice, []) = Ok (out, log)
    ∧ frame_get out "B" 0 = Some None
    ∧ entries_for "t" "B" 0 log = 1.
Proof.
  apply (station_with_few_neighbours_is_never_filled "w" "t" site_slice [] "B" 0).
  - by_compute.
  - by_compute.
  - by_compute.
Defined.

(** X20: when the lists of the neighbour map name no station twice and a
    column of the slice holds fewer than [MIN_NEIGHBORS] numbers, the worker
    leaves the column as it is and logs every missing cell of it once. *)
Theorem sparse_column_is_never_filled proc t grp neighbors col :
  wf_frame grp →
  Forall (fun kl => NoDup (station <$> kl.2)) neighbors →
  length (observed grp col) < MIN_NEIGHBORS →
  ∃ out log,
    impute_slice proc (t, grp, neighbors) = Ok (out, log)
    ∧ ∀ s, frame_get out s col = frame_get grp s col
           ∧ (frame_get grp s col = Some None → entries_for t s col log = 1).
Proof.
  intros Hwf Hlists Hfew.
  assert (∀ s, NoDup (station <$> neighbors_of neighbors s)) as Hnd
    by (intros s; by apply neighbors_of_NoDup).
  rewrite impute_slice_run_cells by done.
  eexists _, _. split; [apply f_equal, surjective_pairing|]. intros s. split.
  - by apply (run_cells_column_frozen t proc neighbors grp col Hnd Hfew).
  - intros Hmiss.
    pose proof (frame_get_cell _ _ _ _ Hwf Hmiss) as Hcell.
    apply list_elem_of_split in Hcell as (pre & post & Hcells).
    destruct (worker_cell_outcome proc t grp neighbors pre s col post Hwf Hcells Hmiss)
      as (out & log & Hrun & _ & _ & Hout).
    rewrite impute_slice_run_cells in Hrun by done. injection Hrun as Hrun.
    rewrite Hrun. cbn [fst snd].
    destruct (decide _) as [Hq|Hq]; [|by destruct Hout].
    exfalso. revert Hq.
    apply (no_quorum_in_column neighbors grp col Hnd Hfew).
    by apply (run_cells_column_frozen t proc neighbors grp col Hnd Hfew).
Qed.

Lemma sparse_column_is_never_filled_witness :
  ∃ out log,
    impute_slice "w" ("t", sparse_slice, line_neighbors) = Ok (out, log)
    ∧ ∀ s, frame_get out s 0 = frame_get sparse_slice s 0
           ∧ (frame_get sparse_slice s 0 = Some None → entries_for "t" s 0 log = 1).
Proof.
  apply (sparse_column_is_never_filled "w" "t" sparse_slice line_neighbors 0).
  - by_compute.
  - by_compute.
  - by_compute.
Defined.

(** X21: a candidate at distance 0 has no part in the estimate.  When some
    candidate is at a positive distance, the estimate is a number, and it is
    the estimate from the candidates at positive distance alone. *)
Theorem zero_distance_candidates_carry_no_weight (vds : list (Q * Q)) :
  0 < length (weighted vds) →
  ∃ e e',
    idw_estimate (Some <$> vds.*1) vds.*2 = Some e
    ∧ idw_estimate (Some <$> (weighted vds).*1) (weighted vds).*2 = Some e'
    ∧ (e == e')%Q.
Proof.
  intros Hlen. assert (weighted vds ≠ []) as Hne
    by (intros E; rewrite E in Hlen; simpl in Hlen; lia).
  rewrite !idw_estimate_numbers.
  destruct (weighted_sums vds) as [Hw Hn].
  pose proof (weighted_sum_pos vds Hne) as Hpos.
  rewrite (Qeq_bool_pos _ Hpos).
  rewrite (Qeq_bool_pos (Qsum (idw_weight <$> vds.*2))) by (by rewrite <- Hw).
  eexists _, _. split; [done|]. split; [done|]. by rewrite Hw, Hn.
Qed.

Lemma zero_distance_candidates_carry_no_weight_witness :
  ∃ e e',
    idw_estimate [Some 7%Q; Some 10%Q; Some 20%Q] [0%Q; 100%Q; 200%Q] = Some e
    ∧ idw_estimate [Some 10%Q; Some 20%Q] [100%Q; 200%Q] = Some e'
    ∧ (e == e')%Q.
Proof.
  apply (zero_distance_candidates_carry_no_weight
           [(7%Q, 0%Q); (10%Q, 100%Q); (20%Q, 200%Q)]).
  vm_compute. lia.
Defined.

(** X22: on a slice with at least one column whose rows have one value per
    column, the worker returns exactly when no label occurs twice in the
    index, and raises ValueError exactly when one does. *)
Theorem worker_raises_iff_label_repeated proc t grp neighbors :
  rectangular grp → 0 < ncols grp →
  (is_ok (impute_slice proc (t, grp, neighbors)) = true ↔ NoDup (index grp))
  ∧ (impute_slice proc (t, grp, neighbors) = Raise ValueError ↔ ¬ NoDup (index grp)).
Proof.
  intros Hrect Hcols.
  assert (NoDup (index grp) → is_ok (impute_slice proc (t, grp, neighbors)) = true)
    as Hok.
  { intros Hnd. by rewrite impute_slice_run_cells. }
  assert (¬ NoDup (index grp) → impute_slice proc (t, grp, neighbors) = Raise ValueError)
    as Hraise.
  { intros Hnd. apply repeated_label in Hnd as [s Hs].
    by apply (impute_slice_repeated_label proc t grp neighbors s). }
  split; split; [|done| |done].
  - intros H. destruct (decide (NoDup (index grp))) as [|Hnd]; [done|].
    rewrite (Hraise Hnd) in H. done.
  - intros H Hnd. rewrite H in Hok. by specialize (Hok Hnd).
Qed.

Lemma worker_raises_iff_label_repeated_witness :
  (is_ok (impute_slice "w" ("t", repeated_slice, line_neighbors)) = true
   ↔ NoDup (index repeated_slice))
  ∧ (impute_slice "w" ("t", repeated_slice, line_neighbors) = Raise ValueError
     ↔ ¬ NoDup (index repeated_slice)).
Proof.
  apply (worker_raises_iff_label_repeated "w" "t" repeated_slice line_neighbors).
  - by_compute.
  - by_compute.
Defined.

(** ** The controller and the result assembler *)

(** X23: from the catalog to the final join.  When no entry of the catalog
    names a valid station, the catalog step returns an empty station map and
    an empty metadata table, and the run cannot end well: whatever the
    flattened table holds, the join on [StationID] raises KeyError if nothing
    has failed before. *)
Theorem catalog_without_valid_station_fails_the_run
    metric valid meta info station_meta proc_of nfeat df0 :
  load_station_info valid meta = Ok (info, station_meta) →
  dict_keys info = [] →
  station_meta = []
  ∧ compute_and_cache_neighbors metric info = []
  ∧ is_ok (run_from_table proc_of nfeat df0 station_meta
             (compute_and_cache_neighbors metric info)) = false.
Proof.
  intros Hload Hkeys.
  apply load_station_info_entries in Hload as (items & _ & -> & Hin & _).
  assert (omap (item_entry valid) items = []) as ->.
  { destruct (omap (item_entry valid) items) as [|e es]; [done|].
    assert (e.1 ∈ dict_keys info) as He.
    { apply Hin, list_elem_of_fmap. exists e. split; [done|left]. }
    rewrite Hkeys in He. by apply elem_of_nil in He. }
  destruct info as [|kv info]; [|done].
  split; [done|]. split; [done|].
  unfold run_from_table.
  destruct (make_groups _ _ _) as [groups|]; simpl; [|done].
  destruct (exe_map proc_of groups) as [results|]; simpl; [|done].
  by destruct (pd_concat _) as [imputed|].
Qed.

Lemma catalog_without_valid_station_fails_the_run_witness :
  is_ok (run_from_table (fun _ => "w") 1 [mkRow "Q" (Some "t1") [Some 1%Q]] []
           (compute_and_cache_neighbors line_metric [])) = false.
Proof.
  eapply (catalog_without_valid_station_fails_the_run line_metric {[ "Q" ]}
            line_catalog [] []).
  - by_compute.
  - by_compute.
Defined.

(** X24: a flattened table in which no row has a timestamp gives no group at
    all, and the run ends with the ValueError of [pd.concat] on an empty
    list. *)
Theorem all_null_timestamps_abort_the_run
    proc_of nfeat df0 station_meta neighbors :
  df0 ≠ [] →
  Forall (fun r => DataTime r = None) df0 →
  run_from_table proc_of nfeat df0 station_meta neighbors = Raise ValueError.
Proof.
  intros Hne Hnull. unfold run_from_table, make_groups.
  destruct df0 as [|r0 df0']; [done|].
  by rewrite (group_keys_all_null _ Hnull).
Qed.

Lemma all_null_timestamps_abort_the_run_witness :
  run_from_table (fun _ => "w") 1
    [mkRow "A" None [Some 1%Q]; mkRow "B" None [None]]
    [mkMeta "A" (PNum 121) (PNum 24) (PNum 10)] site_neighbors
  = Raise ValueError.
Proof.
  apply (all_null_timestamps_abort_the_run (fun _ => "w") 1
           [mkRow "A" None [Some 1%Q]; mkRow "B" None [None]]).
  - vm_compute. discriminate.
  - by_compute.
Defined.

(** X25: the rows of the final table are in ascending order of the
    timestamp. *)
Theorem output_in_timestamp_order proc_of nfeat df0 station_meta neighbors out :
  run_from_table proc_of nfeat df0 station_meta neighbors = Ok out →
  StronglySorted (fun a b => String.leb (out_DataTime a) (out_DataTime b) = true) out.
Proof.
  intros H. apply run_from_table_stages in H as (results & Hres & Hmerge).
  apply merge_left_times in Hmerge as (blocks & -> & Hblocks).
  apply (concat_blocks_sorted (fun a b => String.leb a b = true)
           (fun r : string * string * list float => r.1.2) out_DataTime _ _
           String_leb_refl Hblocks).
  apply (concat_blocks_sorted (fun a b => String.leb a b = true)
           id (fun r : string * string * list float => r.1.2) (group_keys df0) _
           String_leb_refl); [|apply group_keys_sorted].
  eapply (zip_with_blocks (fun _ _ => True)); [|eapply Forall2_impl; [exact Hres|done]].
  intros t res _. unfold assign_time. apply Forall_fmap, Forall_forall. done.
Qed.

Lemma output_in_timestamp_order_witness :
  ∃ out,
    run_from_table (fun _ => "w") 1
      [mkRow "A" (Some "t2") [Some 3%Q]; mkRow "A" (Some "t1") [None];
       mkRow "B" (Some "t1") [Some 2%Q]]
      [mkMeta "A" (PNum 121) (PNum 24) (PNum 10)] site_neighbors = Ok out
    ∧ out_DataTime <$> out = ["t1"; "t1"; "t2"]
    ∧ StronglySorted
        (fun a b => String.leb (out_DataTime a) (out_DataTime b) = true) out.
Proof.
  eexists. split; [by_compute|]. split; [by_compute|].
  apply (output_in_timestamp_order (fun _ => "w") 1
           [mkRow "A" (Some "t2") [Some 3%Q]; mkRow "A" (Some "t1") [None];
            mkRow "B" (Some "t1") [Some 2%Q]]
           [mkMeta "A" (PNum 121) (PNum 24) (PNum 10)] site_neighbors).
  by_compute.
Defined.

(** X26: the numbers of the flattened table reach the final table.  When no
    pair of station and timestamp occurs twice, every row with a timestamp
    has a row of the same station and timestamp in the output in which each
    number of the input row stands in its column. *)
Theorem observed_values_reach_the_output
    proc_of nfeat df0 station_meta neighbors out k r t :
  NoDup (flat_pairs df0) →
  Forall (fun r => length (features r) = nfeat) df0 →
  run_from_table proc_of nfeat df0 station_meta neighbors = Ok out →
  df0 !! k = Some r → DataTime r = Some t →
  ∃ o, o ∈ out
       ∧ out_StationID o = StationID r ∧ out_DataTime o = t
       ∧ ∀ i q, features r !! i = Some (Some q)
                → out_features o !! i = Some (Some q).
Proof.
  intros Hnd Hlen Hrun Hk Ht. apply list_elem_of_lookup_2 in Hk.
  apply run_from_table_stages in Hrun as (results & Hres & Hmerge).
  assert (t ∈ group_keys df0) as Hin by (apply elem_of_group_keys; eauto).
  apply list_elem_of_lookup in Hin as [j Hj].
  destruct (Forall2_lookup_l _ _ _ _ _ Hres Hj) as (res & Hresj & Hw).
  rewrite worker_on_slice in Hw by done. injection Hw as Hw.
  set (slice := slice_of nfeat df0 t) in *.
  pose proof (slice_of_wf nfeat df0 t Hnd Hlen) as Hwf. fold slice in Hwf.
  assert (wf_frame res.1) as Hwf' by (rewrite <- Hw; by apply run_cells_wf).
  assert (index res.1 = index slice) as Hidx by (by rewrite <- Hw, run_cells_index).
  assert (dict_get (rows slice) (StationID r) = Some (features r)) as Hrow.
  { apply dict_get_NoDup_elem; [apply Hwf|]. unfold slice, slice_of. simpl.
    apply list_elem_of_fmap. exists r. split; [done|]. by apply list_elem_of_filter. }
  assert (StationID r ∈ index res.1) as Hs.
  { rewrite Hidx. apply dict_get_is_Some. eauto. }
  apply dict_get_is_Some in Hs as [fs Hfs].
  destruct (merge_left_covers _ _ _ (StationID r, t, fs) Hmerge) as (o & Ho & H1 & H2 & H3).
  { apply elem_of_concat. exists (assign_time t res.1). split.
    - unfold assign_time. apply list_elem_of_fmap. exists (StationID r, fs).
      split; [done|]. by apply dict_get_Some_elem.
    - apply list_elem_of_lookup. exists j. rewrite lookup_zip_with, Hj. simpl.
      by rewrite Hresj. }
  exists o. split; [done|]. split; [done|]. split; [done|].
  intros i q Hq. rewrite H3. simpl.
  assert (frame_get slice (StationID r) i = Some (Some q)) as Hget
    by (unfold frame_get; rewrite Hrow; done).
  apply (run_cells_observed t (proc_of t) neighbors (cells slice) (slice, [])) in Hget.
  rewrite Hw in Hget. unfold frame_get in Hget. by rewrite Hfs in Hget.
Qed.

Lemma observed_values_reach_the_output_witness :
  ∃ out,
    run_from_table (fun _ => "w") 1
      [mkRow "A" (Some "t1") [None]; mkRow "B" (Some "t1") [Some 2%Q]]
      [mkMeta "A" (PNum 121) (PNum 24) (PNum 10)] site_neighbors = Ok out
    ∧ ∃ o, o ∈ out
           ∧ out_StationID o = "B" ∧ out_DataTime o = "t1"
           ∧ ∀ i q, [Some 2%Q] !! i = Some (Some q)
                    → out_features o !! i = Some (Some q).
Proof.
  eexists. split; [by_compute|].
  apply (observed_values_reach_the_output (fun _ => "w") 1
           [mkRow "A" (Some "t1") [None]; mkRow "B" (Some "t1") [Some 2%Q]]
           [mkMeta "A" (PNum 121) (PNum 24) (PNum 10)] site_neighbors _ 1
           (mkRow "B" (Some "t1") [Some 2%Q]) "t1").
  - by_compute.
  - by_compute.
  - by_compute.
  - by_compute.
  - by_compute.
Defined.

(** ** The builder and the worker together *)

(** X27: the builder and the worker together.  With a station map of at most
    [MIN_NEIGHBORS] stations every neighbour list is too short for a quorum:
    the worker returns every slice as it is and logs each missing cell
    once. *)
Theorem small_station_map_fills_nothing
    metric station_info proc t grp :
  NoDup (dict_keys station_info) →
  length (dict_keys station_info) ≤ MIN_NEIGHBORS →
  wf_frame grp →
  ∃ log,
    impute_slice proc (t, grp, compute_and_cache_neighbors metric station_info)
    = Ok (grp, log)
    ∧ ∀ s col, frame_get grp s col = Some None → entries_for t s col log = 1.
Proof.
  intros Hnd Hlen Hwf.
  set (neighbors := compute_and_cache_neighbors metric station_info).
  assert (∀ s, length (neighbors_of neighbors s) < MIN_NEIGHBORS) as Hshort
    by (intros s; by apply built_lists_short).
  exists (run_cells t proc neighbors (cells grp) (grp, [])).2.
  assert (impute_slice proc (t, grp, neighbors)
          = Ok (grp, (run_cells t proc neighbors (cells grp) (grp, [])).2)) as Hrun.
  { rewrite impute_slice_run_cells by done. f_equal.
    rewrite <- (run_cells_short_lists t proc neighbors (cells grp) (grp, []) Hshort)
      at 3.
    apply surjective_pairing. }
  split; [done|]. intros s col Hmiss.
  pose proof (frame_get_cell _ _ _ _ Hwf Hmiss) as Hcell.
  apply list_elem_of_split in Hcell as (pre & post & Hcells).
  destruct (worker_cell_outcome proc t grp neighbors pre s col post Hwf Hcells Hmiss)
    as (out & log & Hrun' & _ & _ & Hout).
  rewrite Hrun in Hrun'. injection Hrun' as <- <-.
  destruct (decide _) as [Hq|Hq]; [|by destruct Hout].
  exfalso. unfold quorum_found in Hq.
  pose proof (candidates_length (run_cells t proc neighbors pre (grp, [])).1 col
                (neighbors_of neighbors s)).
  specialize (Hshort s). lia.
Qed.

Lemma small_station_map_fills_nothing_witness :
  ∃ log,
    impute_slice "w" ("t", sparse_slice, compute_and_cache_neighbors line_metric tie_info)
    = Ok (sparse_slice, log)
    ∧ ∀ s col, frame_get sparse_slice s col = Some None
               → entries_for "t" s col log = 1.
Proof.
  apply (small_station_map_fills_nothing line_metric tie_info "w" "t" sparse_slice).
  - by_compute.
  - by_compute.
  - by_compute.
Defined.
